(** * channeld: merge semantics of channel data

    A shallow embedding of [examples/chat-rooms/chatpb/merge.go]
    ([ChatChannelData.Merge]) over an explicit store of Go slices and
    message objects, followed by the merger, the update log and the
    fan-out scheduler of the design document. *)

From stdpp Require Import base tactics option list strings gmap.

(** ** Go values

    The target is a 64-bit platform: [int] holds every [uint32] and every
    slice length, so no conversion below wraps. *)

(** An address is an index into the store. *)
Abbreviation loc := nat (only parsing).

(** A value of type [*ChatMessage]. The pointee is never read by the code
    below; [NilPtr] is the zero value that fresh array cells hold. *)
Inductive pointer := NilPtr | Ptr (a : loc).

Global Instance pointer_eq_dec : EqDecision pointer.
Proof. solve_decision. Defined.

(** A slice header: the backing array ([None] for the nil slice), the index
    of the slice's first cell in it, and Go's [len] and [cap]. *)
Record slice := Slice { array : option loc; offset : nat; len : nat; cap : nat }.

Global Instance slice_eq_dec : EqDecision slice.
Proof. solve_decision. Defined.

Definition nil_slice : slice := Slice None 0 0 0.

(** [errors.New(text)] *)
Inductive error := errors_New (text : string).

(** Modelled from the spec: [channeldpb.ChannelDataMergeOptions], declared
    outside the files modelled here; the fields are those [Merge] and the
    tests read, and [ListSizeLimit] is a [uint32]. *)
Record ChannelDataMergeOptions := {
  ShouldReplaceList : bool;
  ListSizeLimit : N;
  TruncateTop : bool;
  ShouldCheckRemovableMapField : bool
}.

(** A [proto.Message] interface value: the nil interface, or a pointer
    tagged with its dynamic type. *)
Inductive proto_Message :=
| NilMessage
| ChatChannelDataMsg (p : loc)
| OtherMsg (type_name : string) (p : loc).

(** [channeld.SpatialInfoChangedNotifier], an interface [Merge] never calls. *)
Inductive SpatialInfoChangedNotifier := NilNotifier | Notifier (p : loc).

(** What a call does: it returns a value or it panics. *)
Inductive outcome (A : Type) := Done (a : A) | Panic (msg : string).
Global Arguments Done {A} a.
Global Arguments Panic {A} msg.

Definition nil_dereference : string := "invalid memory address or nil pointer dereference".
Definition slice_bounds : string := "slice bounds out of range".

(** [write i xs arr]: the cells [i .. i + length xs) of [arr] overwritten
    with [xs] (a [memmove] into the array). *)
Definition write {A} (i : nat) (xs arr : list A) : list A :=
  take i arr ++ xs ++ drop (i + length xs) arr.
Global Arguments write : simpl never.

Section ChatChannelData.
(** The generated struct's fields other than [ChatMessages]. *)
Context {Fields : Type}.
(** How much capacity beyond the needed length [append] reserves when it
    reallocates, given the old capacity and the needed length. The
    language only promises a sufficiently large array. *)
Variable growslice : nat → nat → nat.

(** The generated struct, declared outside the files modelled here:
    [ChatMessages] is the one field [Merge] names, [internal] stands for all
    the others. *)
Record ChatChannelData := {
  ChatMessages : slice;
  internal : Fields
}.

(** The store: backing arrays of [*ChatMessage] cells and
    [ChatChannelData] objects, both addressed by index. An address the
    store does not map stands for a nil pointer. *)
Record store := Store {
  arrays : list (list pointer);
  objects : list ChatChannelData
}.

(** Computations over the store that may panic; the store at the panic is
    kept (a deferred [recover] would see it). *)
Definition M (A : Type) : Type := store → outcome A * store.

Global Instance M_ret : MRet M := λ A a h, (Done a, h).
Global Instance M_bind : MBind M := λ A B f m h,
  match m h with
  | (Done a, h') => f a h'
  | (Panic msg, h') => (Panic msg, h')
  end.

Definition panic {A} (msg : string) : M A := λ h, (Panic msg, h).

(** The elements of a slice, read from the store. *)
Definition elems (h : store) (s : slice) : list pointer :=
  match array s with
  | None => []
  | Some a => take (len s) (drop (offset s) (default [] (arrays h !! a)))
  end.
Global Arguments elems : simpl never.

Definition read_slice (s : slice) : M (list pointer) := λ h, (Done (elems h s), h).

(** A new array holding [cells]. *)
Definition new_array (cells : list pointer) : M loc := λ h,
  (Done (length (arrays h)), Store (arrays h ++ [cells]) (objects h)).

Definition write_array (a : loc) (i : nat) (xs : list pointer) : M unit := λ h,
  (Done tt, Store (alter (write i xs) a (arrays h)) (objects h)).

(** The composite literal [[]*ChatMessage{}]: a new array of length 0,
    sliced. *)
Definition empty_slice_literal : M slice :=
  a ← new_array []; mret (Slice (Some a) 0 0 0).

(** [append(s, t...)]. When the result fits the capacity of [s] the
    elements of [t] are copied into the cells after [s] and the array is
    shared; otherwise a larger array is allocated, its unused cells
    zeroed. *)
Definition append (s t : slice) : M slice :=
  xs ← read_slice t;
  let n := len s + length xs in
  if decide (n ≤ cap s) then
    match array s with
    | Some a => write_array a (offset s + len s) xs;; mret (Slice (Some a) (offset s) n (cap s))
    | None => mret (Slice None (offset s) n (cap s))
    end
  else
    old ← read_slice s;
    let newcap := n + growslice (cap s) n in
    a ← new_array (old ++ xs ++ replicate (newcap - n) NilPtr);
    mret (Slice (Some a) 0 n newcap).

(** [s[start:]] for an [int] index. *)
Definition slice_from (s : slice) (start : Z) : M slice :=
  if decide (0 ≤ start ∧ start ≤ Z.of_nat (len s))%Z then
    mret (Slice (array s) (offset s + Z.to_nat start)
                (len s - Z.to_nat start) (cap s - Z.to_nat start))
  else panic slice_bounds.

(** [s[:high]] for an unsigned index. *)
Definition slice_to (s : slice) (high : N) : M slice :=
  if decide (N.to_nat high ≤ cap s) then
    mret (Slice (array s) (offset s) (N.to_nat high) (cap s))
  else panic slice_bounds.

(** [p.ChatMessages] *)
Definition get_ChatMessages (p : loc) : M slice := λ h,
  match objects h !! p with
  | Some o => (Done (ChatMessages o), h)
  | None => (Panic nil_dereference, h)
  end.

(** [p.ChatMessages = s] *)
Definition set_ChatMessages (p : loc) (s : slice) : M unit := λ h,
  match objects h !! p with
  | Some o =>
      (Done tt,
       Store (arrays h) (<[p := {| ChatMessages := s; internal := internal o |}]> (objects h)))
  | None => (Panic nil_dereference, h)
  end.

(** Reading a field through the [options] pointer. *)
Definition deref (options : option ChannelDataMergeOptions) : M ChannelDataMergeOptions :=
  match options with
  | Some o => mret o
  | None => panic nil_dereference
  end.

(** The comma-ok type assertion of [src] to a [ChatChannelData] pointer. *)
Definition assert_ChatChannelData (src : proto_Message) : option loc :=
  match src with
  | ChatChannelDataMsg p => Some p
  | _ => None
  end.

(** [func (dst *ChatChannelData) Merge(src, options, spatialNotifier) error];
    the result is [None] for a nil error. *)
Definition Merge (dst : loc) (src : proto_Message)
    (options : option ChannelDataMergeOptions)
    (spatialNotifier : SpatialInfoChangedNotifier) : M (option error) :=
  match assert_ChatChannelData src with
  | None => mret (Some (errors_New "src is not a ChatChannelData"))
  | Some srcMsg =>
      opts ← deref options;
      (if ShouldReplaceList opts then
         e ← empty_slice_literal;
         s ← get_ChatMessages srcMsg;
         r ← append e s;
         set_ChatMessages dst r
       else
         d ← get_ChatMessages dst;
         s ← get_ChatMessages srcMsg;
         r ← append d s;
         set_ChatMessages dst r);;
      (if decide (0 < ListSizeLimit opts)%N then
         if TruncateTop opts then
           d ← get_ChatMessages dst;
           let start := (Z.of_nat (len d) - Z.of_N (ListSizeLimit opts))%Z in
           let start := if decide (start < 0)%Z then 0%Z else start in
           r ← slice_from d start;
           set_ChatMessages dst r
         else
           d ← get_ChatMessages dst;
           r ← slice_to d (ListSizeLimit opts);
           set_ChatMessages dst r
       else mret tt);;
      mret None
  end.

(** The two statements of [Merge] that follow the type assertion, named so
    that each can be specified on its own; [Merge_unfold] below shows [Merge]
    is their sequence. *)
Definition merge_lists (dst srcMsg : loc) (opts : ChannelDataMergeOptions) : M unit :=
  if ShouldReplaceList opts then
    e ← empty_slice_literal;
    s ← get_ChatMessages srcMsg;
    r ← append e s;
    set_ChatMessages dst r
  else
    d ← get_ChatMessages dst;
    s ← get_ChatMessages srcMsg;
    r ← append d s;
    set_ChatMessages dst r.

Definition apply_limit (dst : loc) (opts : ChannelDataMergeOptions) : M unit :=
  if decide (0 < ListSizeLimit opts)%N then
    if TruncateTop opts then
      d ← get_ChatMessages dst;
      let start := (Z.of_nat (len d) - Z.of_N (ListSizeLimit opts))%Z in
      let start := if decide (start < 0)%Z then 0%Z else start in
      r ← slice_from d start;
      set_ChatMessages dst r
    else
      d ← get_ChatMessages dst;
      r ← slice_to d (ListSizeLimit opts);
      set_ChatMessages dst r
  else mret tt.

(** [o] with its [ChatMessages] field set to [r]. *)
Definition with_ChatMessages (o : ChatChannelData) (r : slice) : ChatChannelData :=
  {| ChatMessages := r; internal := internal o |}.

(** The capacity of [append(s, t...)] for [t] of length [n]. *)
Definition cap_after (s : slice) (n : nat) : nat :=
  if decide (len s + n ≤ cap s) then cap s
  else len s + n + growslice (cap s) (len s + n).

(** A slice the store can hold: its capacity lies inside its backing
    array. *)
Definition wf_slice (h : store) (s : slice) : Prop :=
  len s ≤ cap s ∧
  match array s with
  | None => cap s = 0
  | Some a => a < length (arrays h) ∧ offset s + cap s ≤ length (default [] (arrays h !! a))
  end.

Global Instance wf_slice_dec h s : Decision (wf_slice h s).
Proof. unfold wf_slice. destruct (array s); apply _. Defined.

End ChatChannelData.

(** [untouched s n u]: appending [n] elements to [s] in place writes no cell
    of [u]. *)
Definition untouched (s : slice) (n : nat) (u : slice) : Prop :=
  array u = array s → len s + n ≤ cap s →
  n = 0 ∨ offset u + len u ≤ offset s + len s ∨ offset s + len s + n ≤ offset u.

(** [separate d s]: no cell of [s] lies in the unused capacity of [d]. *)
Definition separate (d s : slice) : Prop :=
  array s ≠ array d ∨
  offset s + len s ≤ offset d + len d ∨
  offset d + cap d ≤ offset s.

Global Instance separate_dec d s : Decision (separate d s).
Proof. unfold separate. apply _. Defined.

(** ** The engine of the design document

    The generic merger ([mergeWithOptions], which the tests call), the
    update log and the fan-out scheduler are defined outside the files
    modelled above. They are modelled from the design document, over a
    payload with fields of each category it distinguishes: two scalars, a
    list and a map whose values carry a [removed] marker (the fields of the
    tests' [TestChannelDataMessage] and [TestMergeMessage]). *)

(** Channel time in nanoseconds, and the key of a connection. *)
Abbreviation ChannelTime := Z (only parsing).
Abbreviation ConnectionId := nat (only parsing).

(** Modelled from the spec: a map value that carries a [removed] marker
    (the tests' [TestMergeMessage_StringWrapper]). *)
Record StringWrapper := { Removed : bool; Content : string }.

Global Instance StringWrapper_eq_dec : EqDecision StringWrapper.
Proof. solve_decision. Defined.

(** Modelled from the spec: a payload; a scalar is [None] when unset. The
    values of the map are pointers to messages: an entry holds [None] when
    its value is nil (the design document's "nil / cleared map values"). *)
Record Payload := {
  Text : option string;
  Num : option Z;
  List : list string;
  Kv : gmap Z (option StringWrapper)
}.

Global Instance Payload_eq_dec : EqDecision Payload.
Proof. solve_decision. Defined.

(** Modelled from the spec: the empty payload that [SliceSince] folds
    into. *)
Definition empty_payload : Payload :=
  {| Text := None; Num := None; List := []; Kv := ∅ |}.

(** Modelled from the spec: the merger's rule for scalar fields, "if src has
    the field set, overwrite dst". *)
Definition merge_scalar {A} (dst src : option A) : option A :=
  match src with
  | Some v => Some v
  | None => dst
  end.

(** Modelled from the spec: the third step of the merger's rule for
    repeated fields: if the limit is positive and the length exceeds it,
    keep the last [limit] elements ([truncateTop]) or the first. *)
Definition truncate_list (options : ChannelDataMergeOptions) (l : list string) : list string :=
  let limit := N.to_nat (ListSizeLimit options) in
  if decide (0 < limit ∧ limit < length l) then
    if TruncateTop options then drop (length l - limit) l else take limit l
  else l.

(** Modelled from the spec: the merger's rule for repeated fields: replace
    or append, then truncate. *)
Definition merge_list (options : ChannelDataMergeOptions) (dst src : list string) : list string :=
  truncate_list options (if ShouldReplaceList options then src else dst ++ src).

(** Modelled from the spec: the merger's rule for one entry of a map field
    of src. A nil value preserves what dst holds at the key instead of
    overwriting it; with [shouldCheckRemovableMapField] an entry marked
    removed deletes its key from dst; any other entry replaces by key. *)
Definition merge_entry (options : ChannelDataMergeOptions)
    (k : Z) (v : option StringWrapper) (dst : gmap Z (option StringWrapper))
    : gmap Z (option StringWrapper) :=
  match v with
  | None => dst
  | Some w =>
      if ShouldCheckRemovableMapField options && Removed w then delete k dst
      else <[k := Some w]> dst
  end.

(** Modelled from the spec: the merger's rule for map fields, applied to
    every entry of src. *)
Definition merge_map (options : ChannelDataMergeOptions)
    (dst src : gmap Z (option StringWrapper)) : gmap Z (option StringWrapper) :=
  map_fold (merge_entry options) dst src.

(** Modelled from the spec: [mergeWithOptions], the merger's
    [Merge(dst, src, options)] on payloads of one type (the payload type is
    fixed per channel, so no type mismatch arises). *)
Definition mergeWithOptions (dst src : Payload) (options : ChannelDataMergeOptions) : Payload :=
  {| Text := merge_scalar (Text dst) (Text src);
     Num := merge_scalar (Num dst) (Num src);
     List := merge_list options (List dst) (List src);
     Kv := merge_map options (Kv dst) (Kv src) |}.

(** Modelled from the spec: an update, [(timestamp, delta, originator)]. *)
Record Update := {
  timestamp : ChannelTime;
  delta : Payload;
  originator : option ConnectionId
}.

(** Modelled from the spec: [ChannelData], with the channel's merge
    options. *)
Record ChannelData := {
  current : Payload;
  updateLog : list Update;
  lastUpdateTime : ChannelTime;
  mergeOptions : ChannelDataMergeOptions
}.

(** Modelled from the spec: the error kind [OnUpdate] reports. *)
Inductive ErrKind := ErrKindOutOfOrder.

(** Modelled from the spec: [ChannelData.Init], with the options that
    [Channel.InitData] configures. *)
Definition Init (initial : Payload) (options : ChannelDataMergeOptions) : ChannelData :=
  {| current := initial; updateLog := []; lastUpdateTime := 0; mergeOptions := options |}.

(** Modelled from the spec: [ChannelData.OnUpdate]. An update older than
    [lastUpdateTime] is reported and dropped. *)
Definition OnUpdate (d : ChannelData) (u : Payload) (t : ChannelTime) (from : option ConnectionId)
    : ChannelData * option ErrKind :=
  if decide (t < lastUpdateTime d)%Z then (d, Some ErrKindOutOfOrder)
  else
    ({| current := mergeWithOptions (current d) u (mergeOptions d);
        updateLog := updateLog d ++ [{| timestamp := t; delta := u; originator := from |}];
        lastUpdateTime := lastUpdateTime d `max` t;
        mergeOptions := mergeOptions d |}, None).

(** Modelled from the spec: the fold of [SliceSince], the updates merged in
    order into one payload. *)
Definition coalesce (options : ChannelDataMergeOptions) (into : Payload) (us : list Update) : Payload :=
  foldl (λ acc u, mergeWithOptions acc (delta u) options) into us.

(** Modelled from the spec: [ChannelData.SliceSince]. *)
Definition SliceSince (d : ChannelData) (cursorIndex : nat) : option Payload * nat :=
  if decide (cursorIndex = length (updateLog d)) then (None, cursorIndex)
  else (Some (coalesce (mergeOptions d) empty_payload (drop cursorIndex (updateLog d))),
        length (updateLog d)).

(** Modelled from the spec: [ChannelData.PruneBefore]. *)
Definition PruneBefore (d : ChannelData) (minIndex : nat) : ChannelData :=
  {| current := current d; updateLog := drop minIndex (updateLog d);
     lastUpdateTime := lastUpdateTime d; mergeOptions := mergeOptions d |}.

(** The last entry that the updates carry for a key, nil entries apart. *)
Definition last_entry (k : Z) (us : list Update) : option StringWrapper :=
  foldl (λ acc u, match Kv (delta u) !! k with
                  | Some (Some w) => Some w
                  | _ => acc
                  end) None us.

(** No key that dst holds is deleted by the updates: with
    [shouldCheckRemovableMapField] on, the last entry they carry for a key
    of dst, if any, is not marked removed. *)
Definition removes_no_key_of (options : ChannelDataMergeOptions)
    (dst : Payload) (us : list Update) : Prop :=
  ShouldCheckRemovableMapField options = true →
  map_Forall (λ k _, match last_entry k us with
                     | Some w => Removed w = false
                     | None => True
                     end) (Kv dst).

Global Instance removes_no_key_of_dec options dst us : Decision (removes_no_key_of options dst us).
Proof.
  unfold removes_no_key_of. apply impl_dec; [apply _|].
  apply map_Forall_dec. intros k _. destruct (last_entry k us); apply _.
Defined.

(** Merging what [SliceSince] returned; nothing is merged when it returned
    no payload. *)
Definition merge_slice (options : ChannelDataMergeOptions) (dst : Payload) (c : option Payload) : Payload :=
  match c with
  | Some p => mergeWithOptions dst p options
  | None => dst
  end.

(** Modelled from the spec: the subscription options of the wire, a
    [uint32] number of milliseconds. *)
Record ChannelSubscriptionOptions := { FanOutIntervalMs : N }.

Global Instance ChannelSubscriptionOptions_eq_dec : EqDecision ChannelSubscriptionOptions.
Proof. solve_decision. Defined.

(** Modelled from the spec: the state of one subscription, keyed by its
    connection. *)
Record Subscription := {
  connection : ConnectionId;
  fanOutIntervalMs : N;
  nextFanOutAt : ChannelTime;
  hasReceivedInitial : bool;
  cursorIndex : nat
}.

(** Modelled from the spec: a channel; its subscriptions are kept in
    insertion order. *)
Record Channel := {
  data : ChannelData;
  subscriptions : list Subscription;
  tickInterval : Z;
  clock : ChannelTime
}.

(** Modelled from the spec: the fan-out interval in channel time
    (nanoseconds). *)
Definition fanOutInterval (s : Subscription) : ChannelTime := (Z.of_N (fanOutIntervalMs s) * 1000000)%Z.

(** Modelled from the spec: [Subscription.New]. *)
Definition New (ch : Channel) (conn : ConnectionId) (options : ChannelSubscriptionOptions) : Subscription :=
  {| connection := conn;
     fanOutIntervalMs := FanOutIntervalMs options;
     nextFanOutAt := clock ch;
     hasReceivedInitial := false;
     cursorIndex := length (updateLog (data ch)) |}.

(** Modelled from the spec: a repeated [Subscribe] updates the interval and
    resets [nextFanOutAt]. *)
Definition resubscribe (ch : Channel) (conn : ConnectionId) (options : ChannelSubscriptionOptions)
    (s : Subscription) : Subscription :=
  if decide (connection s = conn) then
    {| connection := connection s;
       fanOutIntervalMs := FanOutIntervalMs options;
       nextFanOutAt := clock ch;
       hasReceivedInitial := hasReceivedInitial s;
       cursorIndex := cursorIndex s |}
  else s.

(** Modelled from the spec: [Channel.Subscribe], idempotent on the
    connection. *)
Definition Subscribe (ch : Channel) (conn : ConnectionId) (options : ChannelSubscriptionOptions) : Channel :=
  {| data := data ch;
     subscriptions :=
       if decide (conn ∈ connection <$> subscriptions ch)
       then resubscribe ch conn options <$> subscriptions ch
       else subscriptions ch ++ [New ch conn options];
     tickInterval := tickInterval ch;
     clock := clock ch |}.

(** Modelled from the spec: [Channel.Unsubscribe]. *)
Definition Unsubscribe (ch : Channel) (conn : ConnectionId) : Channel :=
  {| data := data ch;
     subscriptions := filter (λ s, connection s ≠ conn) (subscriptions ch);
     tickInterval := tickInterval ch;
     clock := clock ch |}.

(** Modelled from the spec: the body of the scheduler's loop for one
    subscription: the subscription afterwards and the payload sent, if any.
    [Clone] of a value is the value. *)
Definition fan_out (d : ChannelData) (now : ChannelTime) (s : Subscription) : Subscription * option Payload :=
  if decide (now < nextFanOutAt s)%Z then (s, None)
  else if hasReceivedInitial s then
    let '(payload, newIndex) := SliceSince d (cursorIndex s) in
    ({| connection := connection s;
        fanOutIntervalMs := fanOutIntervalMs s;
        nextFanOutAt := nextFanOutAt s + fanOutInterval s;
        hasReceivedInitial := true;
        cursorIndex := newIndex |}, payload)
  else
    ({| connection := connection s;
        fanOutIntervalMs := fanOutIntervalMs s;
        nextFanOutAt := nextFanOutAt s + fanOutInterval s;
        hasReceivedInitial := true;
        cursorIndex := length (updateLog d) |}, Some (current d)).

(** Modelled from the spec: the least cursor; with no subscription nothing
    references the log. *)
Definition min_cursor (d : ChannelData) (subs : list Subscription) : nat :=
  foldr (λ s m, cursorIndex s `min` m) (length (updateLog d)) subs.

(** Modelled from the spec: a cursor shifted after the log was pruned. *)
Definition shift_cursor (by_ : nat) (s : Subscription) : Subscription :=
  {| connection := connection s;
     fanOutIntervalMs := fanOutIntervalMs s;
     nextFanOutAt := nextFanOutAt s;
     hasReceivedInitial := hasReceivedInitial s;
     cursorIndex := cursorIndex s - by_ |}.

(** Modelled from the spec: [Channel.Tick], the fan-out scheduler: the
    channel afterwards and the messages sent, in order. *)
Definition Tick (ch : Channel) (now : ChannelTime) : Channel * list (ConnectionId * Payload) :=
  let subs := (λ s, (fan_out (data ch) now s).1) <$> subscriptions ch in
  let sent := omap (λ s, (connection s,.) <$> (fan_out (data ch) now s).2) (subscriptions ch) in
  let minCursor := min_cursor (data ch) subs in
  ({| data := PruneBefore (data ch) minCursor;
      subscriptions := shift_cursor minCursor <$> subs;
      tickInterval := tickInterval ch;
      clock := now |}, sent).

(** Modelled from the spec: the requests a channel processes serially. *)
Inductive request :=
| ReqUpdate (u : Payload) (t : ChannelTime) (from : option ConnectionId)
| ReqSubscribe (conn : ConnectionId) (options : ChannelSubscriptionOptions)
| ReqUnsubscribe (conn : ConnectionId)
| ReqTick (now : ChannelTime).

Global Instance request_eq_dec : EqDecision request.
Proof. solve_decision. Defined.

(** Modelled from the spec: one request processed; an update that
    [OnUpdate] reports as out of order is dropped. *)
Definition handle (ch : Channel) (r : request) : Channel * list (ConnectionId * Payload) :=
  match r with
  | ReqUpdate u t from =>
      ({| data := (OnUpdate (data ch) u t from).1;
          subscriptions := subscriptions ch;
          tickInterval := tickInterval ch;
          clock := clock ch |}, [])
  | ReqSubscribe conn options => (Subscribe ch conn options, [])
  | ReqUnsubscribe conn => (Unsubscribe ch conn, [])
  | ReqTick now => Tick ch now
  end.

(** Modelled from the spec: requests processed in order, with all the
    messages sent. *)
Fixpoint run (ch : Channel) (rs : list request) : Channel * list (ConnectionId * Payload) :=
  match rs with
  | [] => (ch, [])
  | r :: rs =>
      let '(ch1, sent1) := handle ch r in
      let '(ch2, sent2) := run ch1 rs in
      (ch2, sent1 ++ sent2)
  end.

(** The payloads sent to one connection, in order. *)
Definition delivered (conn : ConnectionId) (sent : list (ConnectionId * Payload)) : list Payload :=
  (filter (λ m, m.1 = conn) sent).*2.
Global Arguments delivered : simpl never.

(** The updates that [rs] appends to the log of a channel whose latest
    update time is [last]. *)
Fixpoint logged (last : ChannelTime) (rs : list request) : list Update :=
  match rs with
  | [] => []
  | ReqUpdate u t from :: rs =>
      if decide (t < last)%Z then logged last rs
      else {| timestamp := t; delta := u; originator := from |} :: logged (last `max` t) rs
  | _ :: rs => logged last rs
  end.

(** A channel as [Subscribe] and [Tick] keep it: at most one subscription
    per connection, every cursor within the log. *)
Definition wf_channel (ch : Channel) : Prop :=
  NoDup (connection <$> subscriptions ch) ∧
  Forall (λ s, cursorIndex s ≤ length (updateLog (data ch))) (subscriptions ch).

Global Instance wf_channel_dec ch : Decision (wf_channel ch).
Proof. unfold wf_channel. apply _. Defined.

(** [c] is subscribed and still awaits its first fan-out. *)
Definition waiting (c : ConnectionId) (ch : Channel) : Prop :=
  ∃ s, s ∈ subscriptions ch ∧ connection s = c ∧ hasReceivedInitial s = false.

(** [c] has had its first fan-out and [pending] are the logged updates
    not yet delivered to it. *)
Definition tracking (c : ConnectionId) (ch : Channel) (pending : list Update) : Prop :=
  ∃ s, s ∈ subscriptions ch ∧ connection s = c ∧ hasReceivedInitial s = true ∧
       drop (cursorIndex s) (updateLog (data ch)) = pending.

(** ** Inputs of the scenarios *)

(** The allocation policy that reserves nothing beyond the needed length. *)
Definition exact_fit : nat → nat → nat := λ _ _, 0.

Definition chat (s : slice) : ChatChannelData (Fields:=unit) :=
  {| ChatMessages := s; internal := tt |}.

Definition default_options : ChannelDataMergeOptions :=
  {| ShouldReplaceList := false; ListSizeLimit := 0; TruncateTop := false;
     ShouldCheckRemovableMapField := false |}.
Definition replace_list : ChannelDataMergeOptions :=
  {| ShouldReplaceList := true; ListSizeLimit := 0; TruncateTop := false;
     ShouldCheckRemovableMapField := false |}.
Definition limit_4 : ChannelDataMergeOptions :=
  {| ShouldReplaceList := false; ListSizeLimit := 4; TruncateTop := false;
     ShouldCheckRemovableMapField := false |}.
Definition limit_4_top : ChannelDataMergeOptions :=
  {| ShouldReplaceList := false; ListSizeLimit := 4; TruncateTop := true;
     ShouldCheckRemovableMapField := false |}.
Definition removable : ChannelDataMergeOptions :=
  {| ShouldReplaceList := false; ListSizeLimit := 0; TruncateTop := false;
     ShouldCheckRemovableMapField := true |}.

(** dst holds the messages at addresses 1, 2, 3 and src those at 4, 5. *)
Definition two_chats : store (Fields:=unit) :=
  Store [[Ptr 1; Ptr 2; Ptr 3]; [Ptr 4; Ptr 5]]
        [chat (Slice (Some 0) 0 3 3); chat (Slice (Some 1) 0 2 2)].

(** One payload holding one message. *)
Definition one_chat : store (Fields:=unit) :=
  Store [[Ptr 1]] [chat (Slice (Some 0) 0 1 1)].

(** Two payloads over one backing array of four cells: dst is its first
    cell with the rest as spare capacity, src its last two cells. *)
Definition shared_array : store (Fields:=unit) :=
  Store [[Ptr 1; Ptr 2; Ptr 3; Ptr 4]]
        [chat (Slice (Some 0) 0 1 4); chat (Slice (Some 0) 2 2 2)].

Definition wrapper (content : string) : StringWrapper :=
  {| Removed := false; Content := content |}.
Definition tombstone : StringWrapper := {| Removed := true; Content := "" |}.

Definition merge_dst : Payload :=
  {| Text := None; Num := None; List := ["a"; "b"; "c"];
     Kv := {[ 1%Z := Some (wrapper "aa"); 2%Z := Some (wrapper "bb") ]} |}.
Definition merge_src : Payload :=
  {| Text := None; Num := None; List := ["d"; "e"];
     Kv := {[ 1%Z := Some tombstone; 2%Z := Some (wrapper "bbb") ]} |}.

(** A payload whose map holds a nil value at key 1. *)
Definition nil_at_1 : Payload :=
  {| Text := None; Num := None; List := []; Kv := {[ 1%Z := None ]} |}.

Definition text_num (t : option string) (n : option Z) : Payload :=
  {| Text := t; Num := n; List := []; Kv := ∅ |}.

(** Milliseconds in channel time. *)
Definition ms (n : Z) : ChannelTime := (n * 1000000)%Z.

(** The channel of the fan-out test before anyone subscribes. *)
Definition test_channel : Channel :=
  {| data := Init (text_num (Some "a") (Some 1%Z)) default_options;
     subscriptions := []; tickInterval := ms 3600000; clock := 0 |}.

(** The update that removes key 1, and a channel that started from
    [merge_dst] and has logged it. *)
Definition removal_of_1 : Payload :=
  {| Text := None; Num := None; List := []; Kv := {[ 1%Z := Some tombstone ]} |}.

Definition removal_logged : ChannelData :=
  (OnUpdate (Init merge_dst removable) removal_of_1 1 None).1.

(** A channel whose log holds the two updates of the fan-out test. *)
Definition two_updates : ChannelData :=
  (OnUpdate (OnUpdate (Init (text_num (Some "a") (Some 1%Z)) default_options)
                      (text_num (Some "b") None) (ms 160) None).1
            (text_num (Some "c") None) (ms 220) None).1.


(** ** Further properties of [ChatChannelData.Merge]: definitions *)

(** What the limit statement of [Merge] leaves of a list where it is
    guarded: everything without a limit, else the last or the first
    [ListSizeLimit] elements. *)
Definition limited (opts : ChannelDataMergeOptions) (l : list pointer) : list pointer :=
  let L := N.to_nat (ListSizeLimit opts) in
  if decide (L = 0) then l
  else if TruncateTop opts then drop (length l - L) l else take L l.

(** A store all of whose payloads hold well-formed lists. *)
Definition wf_store {Fields : Type} (h : store (Fields:=Fields)) : Prop :=
  Forall (λ o, wf_slice h (ChatMessages o)) (objects h).

Global Instance wf_store_dec {Fields : Type} (h : store (Fields:=Fields)) : Decision (wf_store h).
Proof. unfold wf_store. apply _. Defined.

(** ** The test double of the message sender

    [testQueuedMessageSender] and the helpers of the tests that read it.
    [Message] is [proto.Message]. *)

(** The struct; its embedded [MessageSender] is never used. A nil
    [msgProcessor] is [None]; a processor returns a message and an error
    ([None] for nil). *)
Record testQueuedMessageSender := {
  msgQueue : list proto_Message;
  msgProcessor : option (proto_Message → proto_Message * option error)
}.

(** [MessageContext], of which [Send] reads and assigns the [Msg] field
    only. *)
Record MessageContext := { Msg : proto_Message }.

(** The dynamic type of a connection's [sender]. *)
Inductive MessageSender :=
| TestQueued (s : testQueuedMessageSender)
| OtherSender (type_name : string).

(** [Connection], of which the helpers read the [sender] field only. *)
Record Connection := { sender : MessageSender }.

Definition interface_conversion : string := "interface conversion".
Definition index_out_of_range : string := "index out of range".

(** [func (s *testQueuedMessageSender) Send(c *Connection, ctx MessageContext)]:
    the outcome and the sender afterwards. [panic(err)] carries the error's
    text. *)
Definition Send (s : testQueuedMessageSender) (c : Connection) (ctx : MessageContext)
    : outcome unit * testQueuedMessageSender :=
  let enqueue (m : proto_Message) :=
    (Done tt, {| msgQueue := msgQueue s ++ [m]; msgProcessor := msgProcessor s |}) in
  match msgProcessor s with
  | Some process =>
      let '(m, err) := process (Msg ctx) in
      match err with
      | Some (errors_New text) => (Panic text, s)
      | None => enqueue m
      end
  | None => enqueue (Msg ctx)
  end.

(** [addTestConnectionWithProcessor]: the connection that [AddConnection]
    returned, given the test sender with an empty queue. *)
Definition addTestConnectionWithProcessor (added : Connection)
    (p : option (proto_Message → proto_Message * option error)) : Connection :=
  {| sender := TestQueued {| msgQueue := []; msgProcessor := p |} |}.

(** [addTestConnection] *)
Definition addTestConnection (added : Connection) : Connection :=
  addTestConnectionWithProcessor added None.

(** [func (c *Connection) testQueue() []Message]; the type assertion panics
    on any other sender. *)
Definition testQueue (c : Connection) : outcome (list proto_Message) :=
  match sender c with
  | TestQueued s => Done (msgQueue s)
  | OtherSender _ => Panic interface_conversion
  end.

(** [func (c *Connection) latestMsg() Message] *)
Definition latestMsg (c : Connection) : outcome proto_Message :=
  match testQueue c with
  | Done queue =>
      if decide (0 < length queue) then
        match queue !! (length queue - 1) with
        | Some m => Done m
        | None => Panic index_out_of_range
        end
      else Done NilMessage
  | Panic msg => Panic msg
  end.

(** A connection's sender called with one message after another, until a
    call panics. *)
Fixpoint send_all (s : testQueuedMessageSender) (c : Connection) (ms : list proto_Message)
    : outcome unit * testQueuedMessageSender :=
  match ms with
  | [] => (Done tt, s)
  | m :: ms =>
      match Send s c {| Msg := m |} with
      | (Done _, s') => send_all s' c ms
      | (Panic msg, s') => (Panic msg, s')
      end
  end.

(** What the sender's processor makes of a message, and whether it accepts
    it. *)
Definition processed (s : testQueuedMessageSender) (m : proto_Message) : proto_Message :=
  match msgProcessor s with
  | Some process => (process m).1
  | None => m
  end.

Definition accepted (s : testQueuedMessageSender) (m : proto_Message) : Prop :=
  match msgProcessor s with
  | Some process => (process m).2 = None
  | None => True
  end.

Global Instance error_eq_dec : EqDecision error.
Proof. solve_decision. Defined.

Global Instance accepted_dec s m : Decision (accepted s m).
Proof. unfold accepted. destruct (msgProcessor s); apply _. Defined.

(** ** The loop of [TestListRemoveElement]

    A [container/list] list walked by one element pointer [p]: the elements
    before [p] that are still in the list, and the elements from [p] on
    ([p] is nil when there are none). [printed] is what [fmt.Println] has
    written. *)
Record list_walk := {
  kept : list string;
  from_p : list string;
  printed : list string
}.

(** One pass through the loop body: print, then remove the element and move
    to the saved successor if the value is "b", else move to the successor.
    [p.Value] on a nil [p] panics. *)
Definition remove_b_step (w : list_walk) : outcome list_walk :=
  match from_p w with
  | [] => Panic nil_dereference
  | v :: next =>
      if decide (v = "b") then
        Done {| kept := kept w; from_p := next; printed := printed w ++ [v] |}
      else
        Done {| kept := kept w ++ [v]; from_p := next; printed := printed w ++ [v] |}
  end.

(** [for i := 0; i < n; i++ { ... }] *)
Fixpoint remove_b_loop (n : nat) (w : list_walk) : outcome list_walk :=
  match n with
  | 0 => Done w
  | S n =>
      match remove_b_step w with
      | Done w' => remove_b_loop n w'
      | Panic msg => Panic msg
      end
  end.

(** The test from [p := list.Front()] to the end of the loop, for a list
    holding [l]: the list afterwards and what was printed. [n] is
    [list.Len()] taken before the loop. *)
Definition remove_b (l : list string) : outcome (list string * list string) :=
  let n := length l in
  match remove_b_loop n {| kept := []; from_p := l; printed := [] |} with
  | Done w => Done (kept w ++ from_p w, printed w)
  | Panic msg => Panic msg
  end.

(** ** [InitLogsAndMetrics]

    The package's logger and the default registry of the metrics library.
    [Registry.Register] of the library is followed for a collector that
    describes itself by one valid descriptor, as the counters, the gauges
    and the gauge vectors of this package do. The registry keeps hashes;
    they are modelled by what is hashed. *)

(** A descriptor, from the options of its collector: the name, the help
    string and the names of the variable labels. No collector of this
    package sets a namespace, a subsystem or constant labels. *)
Record Desc := {
  fqName : string;
  help : string;
  variableLabels : list string
}.

(** [desc.id] hashes the fully-qualified name and the values of the
    constant labels (none here). [desc.dimHash] hashes the help string and
    the sorted label names, those of variable labels prefixed with "$" (at
    most one here). *)
Definition desc_id (d : Desc) : list string := [fqName d].
Definition dimHash (d : Desc) : string * list string :=
  (help d, (λ l, "$" +:+ l) <$> variableLabels d).

(** The registry: the identifiers of the registered collectors (the
    identifiers of a collector's descriptors combined, here as a set), the
    identifiers of all registered descriptors, and for each
    fully-qualified name the dimensions registered under it. *)
Record Registry := {
  collectorsByID : gset (gset (list string));
  descIDs : gset (list string);
  dimHashesByName : gmap string (string * list string)
}.

Record instruments := {
  logger : pointer;
  registry : Registry
}.

(** The errors of [Register], by their text without the rendering of the
    descriptor: [AlreadyRegisteredError], and the two errors for a
    descriptor that clashes with a registered one. *)
Definition already_registered : string :=
  "duplicate metrics collector registration attempted".
Definition inconsistent_descriptor : string :=
  "a previously registered descriptor with the same fully-qualified name has different label names or a different help string".
Definition duplicate_descriptor : string :=
  "descriptor already exists with the same fully-qualified name and const label values".

(** [Register]: the descriptor is checked against the registered names
    first, then the collector against the registered collectors, then the
    descriptor against the registered descriptors; only then is anything
    registered. *)
Definition Register (d : Desc) (r : Registry) : option string * Registry :=
  let duplicateDescErr := bool_decide (desc_id d ∈ descIDs r) in
  let consistent :=
    match dimHashesByName r !! fqName d with
    | Some h => bool_decide (h = dimHash d)
    | None => true
    end in
  if negb consistent then (Some inconsistent_descriptor, r)
  else if bool_decide ({[desc_id d]} ∈ collectorsByID r) then (Some already_registered, r)
  else if duplicateDescErr then (Some duplicate_descriptor, r)
  else (None, {| collectorsByID := {[ {[desc_id d]} ]} ∪ collectorsByID r;
                 descIDs := {[desc_id d]} ∪ descIDs r;
                 dimHashesByName := <[fqName d := dimHash d]> (dimHashesByName r) |}).

(** [prometheus.MustRegister(c)] on the default registry: registers, or
    panics with the error of [Register]. *)
Definition MustRegister (c : Desc) (st : instruments) : outcome unit * instruments :=
  match Register c (registry st) with
  | (Some err, _) => (Panic err, st)
  | (None, r) => (Done tt, {| logger := logger st; registry := r |})
  end.

(** The collectors of the package, by their descriptors. *)
Definition packetReceived : Desc :=
  {| fqName := "packets_in"; help := "Received packets"; variableLabels := [] |}.
Definition packetSent : Desc :=
  {| fqName := "packets_out"; help := "Sent packets"; variableLabels := [] |}.
Definition packetReceiveRate : Desc :=
  {| fqName := "pps_in"; help := "Received packets per second"; variableLabels := [] |}.
Definition packetSendRate : Desc :=
  {| fqName := "pps_out"; help := "Sent packets per second"; variableLabels := [] |}.
Definition bytesReceived : Desc :=
  {| fqName := "bytes_in"; help := "Received bytes"; variableLabels := [] |}.
Definition bytesSent : Desc :=
  {| fqName := "bytes_out"; help := "Sent bytes"; variableLabels := [] |}.
Definition connectionNum : Desc :=
  {| fqName := "connection_num"; help := "Number of connections"; variableLabels := ["type"] |}.
Definition channelNum : Desc :=
  {| fqName := "channel_num"; help := "Number of channels"; variableLabels := ["type"] |}.

(** One statement after another, unless the first panics. *)
Definition and_then {S : Type} (f g : S → outcome unit * S) : S → outcome unit * S :=
  λ st, match f st with
        | (Done _, st') => g st'
        | (Panic msg, st') => (Panic msg, st')
        end.

(** [InitLogsAndMetrics], for the logger that [zap.NewDevelopment] returns.
    The deferred [logger.Sync()] flushes the logger and touches nothing
    here. *)
Definition InitLogsAndMetrics (new_logger : loc) : instruments → outcome unit * instruments :=
  and_then (λ st, (Done tt, {| logger := Ptr new_logger; registry := registry st |}))
  (and_then (MustRegister packetReceived)
  (and_then (MustRegister packetSent)
  (and_then (MustRegister packetReceiveRate)
  (and_then (MustRegister packetSendRate)
  (and_then (MustRegister bytesReceived)
  (and_then (MustRegister bytesSent)
  (and_then (MustRegister connectionNum)
            (MustRegister channelNum)))))))).

(** The collectors of the package, in the order of their registration. *)
Definition collectors : list Desc :=
  [packetReceived; packetSent; packetReceiveRate; packetSendRate;
   bytesReceived; bytesSent; connectionNum; channelNum].

(** [MustRegister] called for one collector after another, until a call
    panics. *)
Fixpoint register_all (cs : list Desc) (st : instruments) : outcome unit * instruments :=
  match cs with
  | [] => (Done tt, st)
  | c :: cs =>
      match MustRegister c st with
      | (Done _, st') => register_all cs st'
      | (Panic msg, st') => (Panic msg, st')
      end
  end.

(** A collector that the registry would take: its name is free or held
    with the same dimensions, and neither the collector nor its descriptor
    is registered. *)
Definition registrable (r : Registry) (d : Desc) : Prop :=
  (match dimHashesByName r !! fqName d with
   | Some h => h = dimHash d
   | None => True
   end) ∧ ({[desc_id d]} ∉ collectorsByID r) ∧ (desc_id d ∉ descIDs r).

Global Instance registrable_dec r d : Decision (registrable r d).
Proof. unfold registrable. destruct (dimHashesByName r !! fqName d); apply _. Defined.

(** The registry holds a collector. *)
Definition holds (r : Registry) (d : Desc) : Prop :=
  {[desc_id d]} ∈ collectorsByID r ∧ dimHashesByName r !! fqName d = Some (dimHash d).

(** The registry with collectors added to it. *)
Definition with_collectors (cs : list Desc) (r : Registry) : Registry :=
  {| collectorsByID := list_to_set ((λ d, {[desc_id d]}) <$> cs) ∪ collectorsByID r;
     descIDs := list_to_set (desc_id <$> cs) ∪ descIDs r;
     dimHashesByName :=
       list_to_map ((λ d, (fqName d, dimHash d)) <$> cs) ∪ dimHashesByName r |}.

(** The registry of a process in which nothing of this package is
    registered yet, and one in which another collector holds the name
    [packets_in] with a help string of its own. *)
Definition empty_registry : Registry :=
  {| collectorsByID := ∅; descIDs := ∅; dimHashesByName := ∅ |}.

Definition other_packets_in : Registry :=
  (Register {| fqName := "packets_in"; help := "Packets"; variableLabels := [] |}
            empty_registry).2.

(** ** Inputs of the further scenarios *)

(** dst holds the messages at addresses 1, 2, 3, a first src 4, 5 and a
    second src 6. *)
Definition three_chats : store (Fields:=unit) :=
  Store [[Ptr 1; Ptr 2; Ptr 3]; [Ptr 4; Ptr 5]; [Ptr 6]]
        [chat (Slice (Some 0) 0 3 3); chat (Slice (Some 1) 0 2 2);
         chat (Slice (Some 2) 0 1 1)].

(** A processor that refuses the nil message and passes every other one
    on. *)
Definition refuse_nil (m : proto_Message) : proto_Message * option error :=
  match m with
  | NilMessage => (NilMessage, Some (errors_New "nil message"))
  | _ => (m, None)
  end.

Definition refusing_sender : testQueuedMessageSender :=
  {| msgQueue := [OtherMsg "first" 1]; msgProcessor := Some refuse_nil |}.

Definition any_connection : Connection := {| sender := OtherSender "net" |}.
(** ** [ChatChannelData.Merge]: proofs *)

Section MergeProofs.
Context {Fields : Type}.
Variable growslice : nat → nat → nat.
Implicit Types (h : @store Fields) (s t u r : slice) (xs : list pointer) (p q : nat).

(** *** The store monad and the cells of an array *)

Lemma run_bind {A B} (m : M A) (f : A → M B) h :
  (m ≫= f) h = match m h with (Done a, h') => f a h' | (Panic msg, h') => (Panic msg, h') end.
Proof. reflexivity. Qed.

Lemma length_write {A} i (xs arr : list A) :
  i + length xs ≤ length arr → length (write i xs arr) = length arr.
Proof. intros. unfold write. rewrite !length_app, length_take, length_drop. lia. Qed.

(** Reading a window of an array just after appending to it in place. *)
Lemma window_write_app {A} o l (xs arr : list A) :
  o + l + length xs ≤ length arr →
  take (l + length xs) (drop o (write (o + l) xs arr)) = take l (drop o arr) ++ xs.
Proof.
  intros Hlen. unfold write.
  rewrite drop_app_le by (rewrite length_take; lia).
  rewrite take_app_ge by (rewrite length_drop, length_take; lia).
  rewrite length_drop, length_take.
  replace (l + length xs - (((o + l) `min` length arr) - o)) with (length xs) by lia.
  rewrite take_app_le by lia. rewrite firstn_all.
  f_equal. rewrite skipn_firstn_comm. f_equal. lia.
Qed.

(** A window that the written cells do not meet reads as before. *)
Lemma window_write_disjoint {A} o l i (xs arr : list A) :
  i + length xs ≤ length arr →
  o + l ≤ i ∨ i + length xs ≤ o →
  take l (drop o (write i xs arr)) = take l (drop o arr).
Proof.
  intros Hlen Hdis. apply list_eq. intros j.
  destruct (decide (j < l)) as [Hj|Hj].
  2:{ rewrite !lookup_take_ge by lia. done. }
  rewrite !lookup_take_lt, !lookup_drop by lia.
  unfold write.
  destruct Hdis as [Hdis|Hdis].
  - rewrite lookup_app_l by (rewrite length_take; lia).
    rewrite lookup_take_lt by lia. done.
  - rewrite lookup_app_r by (rewrite length_take; lia).
    rewrite lookup_app_r by (rewrite length_take; lia).
    rewrite lookup_drop, length_take. f_equal. lia.
Qed.



Lemma length_elems h s : wf_slice h s → length (elems h s) = len s.
Proof.
  intros [Hlen Harr]. unfold elems. destruct (array s) as [a|]; simpl.
  - destruct Harr as [_ Harr]. rewrite length_take, length_drop. lia.
  - lia.
Qed.

Lemma write_nil {A} i (arr : list A) : write i [] arr = arr.
Proof. unfold write. simpl. rewrite Nat.add_0_r. apply take_drop. Qed.

(** *** [append]

    [append] never panics on a well-formed slice. The result holds the
    elements of both slices, every slice of the store stays well-formed, and
    a slice whose cells are not written reads as before. *)
Lemma append_spec h s t :
  wf_slice h s →
  ∃ r h', append growslice s t h = (Done r, h') ∧
    objects h' = objects h ∧
    len r = len s + length (elems h t) ∧
    cap r = cap_after growslice s (length (elems h t)) ∧
    wf_slice h' r ∧
    elems h' r = elems h s ++ elems h t ∧
    (∀ u, wf_slice h u → wf_slice h' u) ∧
    (∀ u, wf_slice h u → untouched s (length (elems h t)) u → elems h' u = elems h u).
Proof.
  intros Hwf. pose proof (length_elems h s Hwf) as Hls.
  destruct Hwf as [Hlen Harr].
  unfold append, cap_after. rewrite run_bind. cbn [read_slice].
  set (xs := elems h t). case_decide as Hfit.
  - destruct (array s) as [a|] eqn:Ha.
    + destruct Harr as [Ha_lt Hcap].
      destruct (lookup_lt_is_Some_2 _ _ Ha_lt) as [arr Harr].
      rewrite Harr in Hcap. simpl in Hcap.
      eexists _, _. split; [reflexivity|]. cbn.
      assert (Hw : length (write (offset s + len s) xs arr) = length arr)
        by (apply length_write; lia).
      split_and!; [done|done|done|..].
      * split; [simpl; lia|]. simpl. rewrite length_alter. split; [done|].
        rewrite list_lookup_alter_eq, Harr. simpl. lia.
      * unfold elems. cbn [array offset len arrays]. rewrite Ha. simpl.
        rewrite list_lookup_alter_eq, Harr. simpl.
        apply window_write_app. lia.
      * intros u [Hu1 Hu2]. split; [done|].
        destruct (array u) as [b|]; [|done]. simpl. rewrite length_alter.
        destruct Hu2 as [Hb Hu2]. split; [done|].
        destruct (decide (a = b)) as [->|Hne].
        -- rewrite list_lookup_alter_eq, Harr. rewrite Harr in Hu2. simpl in *. lia.
        -- by rewrite list_lookup_alter_ne.
      * intros u [Hu1 Hu2] Hun. unfold elems.
        destruct (array u) as [b|] eqn:Hb; [|done]. simpl.
        destruct (decide (a = b)) as [->|Hne].
        -- rewrite list_lookup_alter_eq, Harr. simpl.
           destruct Hun as [Hn|Hdis]; [by rewrite Ha|done| |].
           ++ apply length_zero_iff_nil in Hn. rewrite Hn. by rewrite write_nil.
           ++ apply window_write_disjoint; lia.
        -- by rewrite list_lookup_alter_ne.
    + eexists _, _. split; [reflexivity|]. cbn.
      assert (xs = []) as Hxs by (apply length_zero_iff_nil; lia).
      split_and!; [done|done|done| |..|done|done].
      * split; simpl; [lia|done].
      * rewrite Hxs. unfold elems; simpl. by rewrite Ha.
  - rewrite run_bind. cbn [read_slice new_array]. rewrite run_bind. cbn.
    eexists _, _. split; [reflexivity|]. cbn.
    split_and!; [done|lia|done|..].
    + split; simpl; [lia|]. rewrite length_app. simpl. split; [lia|].
      rewrite lookup_app_r by lia. rewrite Nat.sub_diag. simpl.
      rewrite !length_app, length_replicate. fold xs. lia.
    + unfold elems at 1. simpl.
      rewrite lookup_app_r by lia. rewrite Nat.sub_diag. simpl.
      rewrite drop_0, app_assoc. rewrite take_app_le by (rewrite length_app; fold xs; lia).
      rewrite firstn_all2 by (rewrite length_app; fold xs; lia). done.
    + intros u [Hu1 Hu2]. split; [done|].
      destruct (array u) as [b|]; [|done]. simpl. rewrite length_app. simpl.
      destruct Hu2 as [Hb Hu2]. split; [lia|]. by rewrite lookup_app_l.
    + intros u [Hu1 Hu2] _. unfold elems.
      destruct (array u) as [b|]; [|done]. simpl.
      destruct Hu2 as [Hb Hu2]. by rewrite lookup_app_l.
Qed.


(** *** The two statements of [Merge] *)

Lemma Merge_unfold dst srcMsg opts n :
  Merge (Fields:=Fields) growslice dst (ChatChannelDataMsg srcMsg) (Some opts) n =
  (merge_lists growslice dst srcMsg opts;; apply_limit dst opts;; mret None).
Proof. reflexivity. Qed.


Lemma elems_arrays h h' u : arrays h' = arrays h → elems h' u = elems h u.
Proof. intros E. unfold elems. by rewrite E. Qed.

Lemma wf_slice_arrays h h' u : arrays h' = arrays h → wf_slice h u → wf_slice h' u.
Proof. intros E. unfold wf_slice. by rewrite E. Qed.

Lemma get_ChatMessages_run h p o :
  objects h !! p = Some o → get_ChatMessages p h = (Done (ChatMessages o), h).
Proof. intros E. unfold get_ChatMessages. by rewrite E. Qed.

Lemma set_ChatMessages_run h p o r :
  objects h !! p = Some o →
  set_ChatMessages p r h = (Done tt, Store (arrays h) (<[p := with_ChatMessages o r]> (objects h))).
Proof. intros E. unfold set_ChatMessages. by rewrite E. Qed.

(** The replace-or-append statement: dst's list becomes the replaced or
    concatenated list, in a slice of the stated capacity. *)
Lemma merge_lists_spec h p q D S opts :
  objects h !! p = Some D → objects h !! q = Some S →
  wf_slice h (ChatMessages D) → wf_slice h (ChatMessages S) →
  ∃ r h1, merge_lists growslice p q opts h = (Done tt, h1) ∧
    objects h1 = <[p := with_ChatMessages D r]> (objects h) ∧
    wf_slice h1 r ∧
    cap r = cap_after growslice
              (if ShouldReplaceList opts then nil_slice else ChatMessages D)
              (len (ChatMessages S)) ∧
    elems h1 r = (if ShouldReplaceList opts then elems h (ChatMessages S)
                  else elems h (ChatMessages D) ++ elems h (ChatMessages S)) ∧
    (∀ u, wf_slice h u → wf_slice h1 u) ∧
    (∀ u, wf_slice h u →
       (ShouldReplaceList opts = false → untouched (ChatMessages D) (len (ChatMessages S)) u) →
       elems h1 u = elems h u).
Proof.
  intros Hd Hs HwD HwS. unfold merge_lists.
  destruct (ShouldReplaceList opts).
  - rewrite run_bind. cbn [empty_slice_literal].
    set (h0 := Store (arrays h ++ [[]]) (objects h)).
    set (e := Slice (Some (length (arrays h))) 0 0 0).
    assert (Hrun0 : empty_slice_literal h = (Done e, h0)) by reflexivity.
    rewrite Hrun0.
    assert (Hkeep : ∀ u, wf_slice h u → wf_slice h0 u ∧ elems h0 u = elems h u).
    { intros u [Hu1 Hu2]. unfold wf_slice, elems. destruct (array u) as [b|]; [|done].
      simpl. rewrite length_app. simpl. destruct Hu2 as [Hb Hu2].
      rewrite lookup_app_l by done. split; [|done]. split; [done|]. split; [lia|done]. }
    assert (Hwe : wf_slice h0 e).
    { split; [done|]. simpl. rewrite length_app; simpl. split; [lia|].
      rewrite lookup_app_r by lia. by rewrite Nat.sub_diag. }
    assert (Hee : elems h0 e = []) by (unfold elems; simpl; by rewrite take_0).
    rewrite run_bind, (get_ChatMessages_run h0 q S) by done.
    destruct (append_spec h0 e (ChatMessages S) Hwe)
      as (r & h1 & Hrun & Hobj & Hlen & Hcap & Hwr & Hel & Hwf & Hfr).
    rewrite run_bind, Hrun.
    assert (Hd1 : objects h1 !! p = Some D) by (by rewrite Hobj).
    rewrite (set_ChatMessages_run h1 p D r Hd1).
    eexists _, _. split; [reflexivity|]. cbn [objects].
    split_and!.
    + by rewrite Hobj.
    + by eapply wf_slice_arrays.
    + rewrite Hcap. destruct (Hkeep _ HwS) as [HwS0 ->].
      by rewrite (length_elems h _ HwS).
    + rewrite (elems_arrays h1) by done. rewrite Hel, Hee. simpl.
      by apply Hkeep.
    + intros u Hu. eapply wf_slice_arrays; [done|]. apply Hwf. by apply Hkeep.
    + intros u Hu _. rewrite (elems_arrays h1) by done.
      destruct (Hkeep u Hu) as [Hu0 <-]. apply Hfr; [done|].
      intros Harr. destruct Hu as [_ Hu]. rewrite Harr in Hu. simpl in Hu. lia.
  - rewrite run_bind, (get_ChatMessages_run h p D) by done.
    rewrite run_bind, (get_ChatMessages_run h q S) by done.
    destruct (append_spec h (ChatMessages D) (ChatMessages S) HwD)
      as (r & h1 & Hrun & Hobj & Hlen & Hcap & Hwr & Hel & Hwf & Hfr).
    rewrite run_bind, Hrun.
    assert (Hd1 : objects h1 !! p = Some D) by (by rewrite Hobj).
    rewrite (set_ChatMessages_run h1 p D r Hd1).
    eexists _, _. split; [reflexivity|]. cbn [objects].
    split_and!.
    + by rewrite Hobj.
    + by eapply wf_slice_arrays.
    + by rewrite Hcap, (length_elems h _ HwS).
    + by rewrite (elems_arrays h1).
    + intros u Hu. eapply wf_slice_arrays; [done|]. by apply Hwf.
    + intros u Hu Hun. rewrite (elems_arrays h1) by done. apply Hfr; [done|].
      rewrite (length_elems h _ HwS). by apply Hun.
Qed.

Lemma with_ChatMessages_id (o : @ChatChannelData Fields) : with_ChatMessages o (ChatMessages o) = o.
Proof. by destruct o. Qed.

Lemma elems_slice_from h r st :
  st ≤ len r →
  elems h (Slice (array r) (offset r + st) (len r - st) (cap r - st)) = drop st (elems h r).
Proof.
  intros Hst. unfold elems. simpl. destruct (array r) as [a|]; [|by rewrite drop_nil].
  rewrite <-drop_drop, take_drop_commute. do 2 f_equal. lia.
Qed.

Lemma elems_slice_to h r k :
  k ≤ len r →
  elems h (Slice (array r) (offset r) k (cap r)) = take k (elems h r).
Proof.
  intros Hk. unfold elems. simpl. destruct (array r) as [a|]; [|by rewrite take_nil].
  rewrite take_take. f_equal. lia.
Qed.


(** The limit statement where it is guarded: no limit, [TruncateTop], or a
    list at least as long as the limit. *)
Lemma apply_limit_spec h p D opts :
  objects h !! p = Some D → wf_slice h (ChatMessages D) →
  let l := elems h (ChatMessages D) in
  let L := N.to_nat (ListSizeLimit opts) in
  L = 0 ∨ TruncateTop opts = true ∨ L ≤ length l →
  ∃ r, apply_limit p opts h =
         (Done tt, Store (arrays h) (<[p := with_ChatMessages D r]> (objects h))) ∧
       wf_slice h r ∧
       elems h r = (if decide (L = 0) then l
                    else if TruncateTop opts then drop (length l - L) l else take L l).
Proof.
  intros Hp Hwf l L Hcase. pose proof (length_elems h _ Hwf) as Hlen. fold l in Hlen.
  assert (Hid : h = Store (arrays h) (<[p := with_ChatMessages D (ChatMessages D)]> (objects h))).
  { rewrite with_ChatMessages_id, list_insert_id by done. by destruct h. }
  unfold apply_limit. case_decide as HL.
  - rewrite decide_False by (unfold L; lia).
    destruct (TruncateTop opts) eqn:Htop.
    + rewrite run_bind, (get_ChatMessages_run h p D) by done. cbv zeta.
      set (start := if decide (_ < 0)%Z then 0%Z else _).
      assert (Hstart : Z.to_nat start = len (ChatMessages D) - L).
      { unfold start. case_decide; unfold L; lia. }
      unfold slice_from. rewrite decide_True by (unfold start; case_decide; lia).
      rewrite run_bind. cbn [mret M_ret]. rewrite Hstart.
      rewrite (set_ChatMessages_run h p D _ Hp).
      eexists. split; [reflexivity|]. destruct Hwf as [Hw1 Hw2]. split.
      * split; [simpl; lia|]. simpl. destruct (array (ChatMessages D)); [|lia].
        split; [tauto|]. lia.
      * rewrite Hlen. apply elems_slice_from. lia.
    + destruct Hcase as [?|[?|Hle]]; [unfold L in *; lia|done|].
      rewrite run_bind, (get_ChatMessages_run h p D) by done.
      destruct Hwf as [Hw1 Hw2].
      unfold slice_to. rewrite decide_True by (fold L; lia).
      rewrite run_bind. cbn [mret M_ret].
      rewrite (set_ChatMessages_run h p D _ Hp).
      eexists. split; [reflexivity|]. split.
      * split; [simpl; fold L; lia|]. simpl. done.
      * apply elems_slice_to. fold L. lia.
  - rewrite decide_True by (unfold L; lia).
    exists (ChatMessages D). split; [|done]. cbn. by rewrite <-Hid.
Qed.

(** *** [Merge] on two payloads *)

Lemma Merge_spec h p q D S opts n :
  objects h !! p = Some D → objects h !! q = Some S →
  wf_slice h (ChatMessages D) → wf_slice h (ChatMessages S) →
  let cat := if ShouldReplaceList opts then elems h (ChatMessages S)
             else elems h (ChatMessages D) ++ elems h (ChatMessages S) in
  let L := N.to_nat (ListSizeLimit opts) in
  L = 0 ∨ TruncateTop opts = true ∨ L ≤ length cat →
  ∃ r h', Merge growslice p (ChatChannelDataMsg q) (Some opts) n h = (Done None, h') ∧
    objects h' = <[p := with_ChatMessages D r]> (objects h) ∧
    wf_slice h' r ∧
    elems h' r = (if decide (L = 0) then cat
                  else if TruncateTop opts then drop (length cat - L) cat else take L cat).
Proof.
  intros Hp Hq HwD HwS cat L Hcase.
  destruct (merge_lists_spec h p q D S opts Hp Hq HwD HwS)
    as (r1 & h1 & Hrun1 & Hobj1 & Hwr1 & _ & Hel1 & _ & _).
  fold cat in Hel1.
  assert (Hp1 : objects h1 !! p = Some (with_ChatMessages D r1)).
  { rewrite Hobj1. apply list_lookup_insert_eq. by eapply lookup_lt_Some. }
  destruct (apply_limit_spec h1 p _ opts Hp1) as (r & Hrun2 & Hwr & Hel).
  { done. } { simpl. rewrite Hel1. done. }
  simpl in Hel. rewrite Hel1 in Hel. fold L in Hel.
  rewrite Merge_unfold, run_bind, Hrun1, run_bind, Hrun2.
  eexists r, _. split; [reflexivity|]. cbn [objects]. split_and!.
  - rewrite Hobj1, list_insert_insert_eq. done.
  - by eapply wf_slice_arrays.
  - by rewrite (elems_arrays h1).
Qed.


(** C3. Truncate direction: when the concatenated (or, in replace mode, the
    replaced) list is longer than the limit L > 0, [Merge] with
    [TruncateTop] leaves exactly its last L elements in dst and [Merge]
    without it leaves exactly its first L elements. dst and src may be the
    same object. *)
Theorem Merge_truncate_direction h p q D S opts n :
  objects h !! p = Some D → objects h !! q = Some S →
  wf_slice h (ChatMessages D) → wf_slice h (ChatMessages S) →
  let cat := if ShouldReplaceList opts then elems h (ChatMessages S)
             else elems h (ChatMessages D) ++ elems h (ChatMessages S) in
  let L := N.to_nat (ListSizeLimit opts) in
  0 < L → L < length cat →
  ∃ h' D', Merge growslice p (ChatChannelDataMsg q) (Some opts) n h = (Done None, h') ∧
    objects h' !! p = Some D' ∧
    elems h' (ChatMessages D') =
      if TruncateTop opts then drop (length cat - L) cat else take L cat.
Proof.
  intros Hp Hq HwD HwS cat L HL Hlong.
  destruct (Merge_spec h p q D S opts n Hp Hq HwD HwS) as (r & h' & Hrun & Hobj & _ & Hel).
  { right; right. fold cat L. lia. }
  fold cat L in Hel. rewrite decide_False in Hel by lia.
  exists h', (with_ChatMessages D r). split_and!; [done| |done].
  rewrite Hobj. apply list_lookup_insert_eq. by eapply lookup_lt_Some.
Qed.

(** C4. Type mismatch: when src's dynamic type is not [ChatChannelData]
    (the nil interface included), [Merge] returns the error "src is not a
    ChatChannelData" and leaves the whole store, dst included, unchanged,
    whatever the options (a nil [options] pointer included). *)
Theorem Merge_type_mismatch h p src options n :
  assert_ChatChannelData src = None →
  Merge growslice p src options n h =
    (Done (Some (errors_New "src is not a ChatChannelData")), h).
Proof. intros Hsrc. unfold Merge. by rewrite Hsrc. Qed.

(** C8. Idempotence for replace-list: merging a payload into itself with
    [ShouldReplaceList] and no size limit returns nil and leaves its list
    unchanged element-wise. *)
Theorem Merge_replace_self h p P opts n :
  objects h !! p = Some P → wf_slice h (ChatMessages P) →
  ShouldReplaceList opts = true → ListSizeLimit opts = 0%N →
  ∃ h' P', Merge growslice p (ChatChannelDataMsg p) (Some opts) n h = (Done None, h') ∧
    objects h' !! p = Some P' ∧
    elems h' (ChatMessages P') = elems h (ChatMessages P).
Proof.
  intros Hp Hwf Hrep HL.
  destruct (Merge_spec h p p P P opts n Hp Hp Hwf Hwf) as (r & h' & Hrun & Hobj & _ & Hel).
  { left. by rewrite HL. }
  rewrite HL, Hrep in Hel. simpl in Hel.
  exists h', (with_ChatMessages P r). split_and!; [done| |done].
  rewrite Hobj. apply list_lookup_insert_eq. by eapply lookup_lt_Some.
Qed.


(** X2. Where a positive limit is guarded the length is the one the design
    document gives: with [TruncateTop], or when the list is at least as long
    as the limit, [Merge] returns nil and leaves a list of length
    min(total, limit), where total is len src in replace mode and
    len dst + len src in append mode. *)
Lemma Merge_size_limit_guarded h p q D S opts n :
  objects h !! p = Some D → objects h !! q = Some S →
  wf_slice h (ChatMessages D) → wf_slice h (ChatMessages S) →
  let total := if ShouldReplaceList opts then len (ChatMessages S)
               else len (ChatMessages D) + len (ChatMessages S) in
  let L := N.to_nat (ListSizeLimit opts) in
  0 < L → TruncateTop opts = true ∨ L ≤ total →
  ∃ h' D', Merge growslice p (ChatChannelDataMsg q) (Some opts) n h = (Done None, h') ∧
    objects h' !! p = Some D' ∧
    length (elems h' (ChatMessages D')) = total `min` L.
Proof.
  intros Hp Hq HwD HwS total L HL Hcase.
  pose proof (length_elems h _ HwD) as HlD. pose proof (length_elems h _ HwS) as HlS.
  destruct (Merge_spec h p q D S opts n Hp Hq HwD HwS) as (r & h' & Hrun & Hobj & _ & Hel).
  { destruct Hcase as [?|Hle]; [by right; left|]. right; right.
    unfold total in Hle. destruct (ShouldReplaceList opts); rewrite ?length_app; lia. }
  exists h', (with_ChatMessages D r). split_and!; [done| |].
  { rewrite Hobj. apply list_lookup_insert_eq. by eapply lookup_lt_Some. }
  cbn [with_ChatMessages ChatMessages]. rewrite Hel. fold L.
  rewrite decide_False by lia.
  assert (Hcat : length (if ShouldReplaceList opts then elems h (ChatMessages S)
                         else elems h (ChatMessages D) ++ elems h (ChatMessages S)) = total).
  { unfold total. destruct (ShouldReplaceList opts); rewrite ?length_app; lia. }
  destruct (TruncateTop opts).
  - rewrite length_drop, Hcat. lia.
  - rewrite length_take, Hcat. destruct Hcase as [?|?]; [done|lia].
Qed.


(** The limit statement panics exactly when the limit is positive,
    [TruncateTop] is off and the limit exceeds the capacity. *)
Lemma apply_limit_outcome h p D opts :
  objects h !! p = Some D →
  let L := N.to_nat (ListSizeLimit opts) in
  ∃ h', apply_limit p opts h =
    (if decide (0 < L ∧ TruncateTop opts = false ∧ cap (ChatMessages D) < L)
     then Panic slice_bounds else Done tt, h').
Proof.
  intros Hp L. unfold apply_limit. case_decide as HL.
  - destruct (TruncateTop opts).
    + rewrite decide_False by (by intros (_ & ? & _)).
      rewrite run_bind, (get_ChatMessages_run h p D Hp). cbv zeta.
      unfold slice_from. rewrite decide_True by (case_decide; lia).
      rewrite run_bind. cbn [mret M_ret]. rewrite (set_ChatMessages_run h p D _ Hp). eauto.
    + rewrite run_bind, (get_ChatMessages_run h p D Hp).
      unfold slice_to. fold L. case_decide as Hfit.
      * rewrite decide_False by lia.
        rewrite run_bind. cbn [mret M_ret]. rewrite (set_ChatMessages_run h p D _ Hp). eauto.
      * rewrite decide_True by (unfold L in *; lia). eauto.
  - rewrite decide_False by (unfold L; lia). eauto.
Qed.

(** X1. [Merge] on two payloads returns nil, except that it panics exactly
    when the limit is positive, [TruncateTop] is off and the limit exceeds
    the capacity the list has after the append. *)
Lemma Merge_returns_or_panics h p q D S opts n :
  objects h !! p = Some D → objects h !! q = Some S →
  wf_slice h (ChatMessages D) → wf_slice h (ChatMessages S) →
  let c := cap_after growslice
             (if ShouldReplaceList opts then nil_slice else ChatMessages D)
             (len (ChatMessages S)) in
  let L := N.to_nat (ListSizeLimit opts) in
  ∃ h', Merge growslice p (ChatChannelDataMsg q) (Some opts) n h =
    (if decide (0 < L ∧ TruncateTop opts = false ∧ c < L)
     then Panic slice_bounds else Done None, h').
Proof.
  intros Hp Hq HwD HwS c L.
  destruct (merge_lists_spec h p q D S opts Hp Hq HwD HwS)
    as (r1 & h1 & Hrun1 & Hobj1 & Hwr1 & Hcap1 & _ & _ & _).
  fold c in Hcap1.
  assert (Hp1 : objects h1 !! p = Some (with_ChatMessages D r1)).
  { rewrite Hobj1. apply list_lookup_insert_eq. by eapply lookup_lt_Some. }
  rewrite Merge_unfold, run_bind, Hrun1, run_bind.
  destruct (apply_limit_outcome h1 p _ opts Hp1) as [h' ->].
  cbn [with_ChatMessages ChatMessages]. rewrite Hcap1. fold L.
  exists h'. by case_decide.
Qed.

(** C2, the code at the failing input. With a positive limit and without
    [TruncateTop], merging an empty payload into an empty payload panics on
    the slice expression that applies the limit: the list after the append
    has capacity 0 and the limit is 1. *)
Theorem Merge_limit_panics_on_empty_lists (x y : Fields) n :
  let h := Store [] [ {| ChatMessages := nil_slice; internal := x |};
                      {| ChatMessages := nil_slice; internal := y |} ] in
  let opts := {| ShouldReplaceList := false; ListSizeLimit := 1;
                 TruncateTop := false; ShouldCheckRemovableMapField := false |} in
  Merge growslice 0 (ChatChannelDataMsg 1) (Some opts) n h = (Panic slice_bounds, h).
Proof. reflexivity. Qed.

(** C1, the code at the failing input. dst holds three messages in a
    backing array of four cells (a list grown by appending one message at a
    time), src holds none, the limit is 4 and [TruncateTop] is off: [Merge]
    returns nil and leaves a list of length 4, the three messages and the
    nil of the unused cell, not of length min (3 + 0) 4 = 3. *)
Theorem Merge_limit_extends_short_list (x y : Fields) n :
  let h := Store [[Ptr 1; Ptr 2; Ptr 3; NilPtr]]
                 [ {| ChatMessages := Slice (Some 0) 0 3 4; internal := x |};
                   {| ChatMessages := nil_slice; internal := y |} ] in
  let opts := {| ShouldReplaceList := false; ListSizeLimit := 4;
                 TruncateTop := false; ShouldCheckRemovableMapField := false |} in
  ∃ h' D', Merge growslice 0 (ChatChannelDataMsg 1) (Some opts) n h = (Done None, h') ∧
    objects h' !! 0 = Some D' ∧
    elems h' (ChatMessages D') = [Ptr 1; Ptr 2; Ptr 3; NilPtr] ∧
    length (elems h' (ChatMessages D')) ≠
      (length (elems h (Slice (Some 0) 0 3 4)) + length (elems h nil_slice)) `min` 4.
Proof.
  intros h opts. eexists _, _.
  split_and!; [reflexivity|reflexivity|reflexivity|]. by vm_compute.
Qed.

(** C9, the code at the failing input. src is a [ChatChannelData], yet
    [Merge] returns neither nil nor an error: with limit 3 and without
    [TruncateTop], appending one message in place to a list of one message
    whose backing array has two cells leaves capacity 2, and the slice
    expression that applies the limit panics. *)
Theorem Merge_ChatChannelData_src_panics (x y : Fields) n :
  let h := Store [[Ptr 7; NilPtr]; [Ptr 8]]
                 [ {| ChatMessages := Slice (Some 0) 0 1 2; internal := x |};
                   {| ChatMessages := Slice (Some 1) 0 1 1; internal := y |} ] in
  let opts := {| ShouldReplaceList := false; ListSizeLimit := 3;
                 TruncateTop := false; ShouldCheckRemovableMapField := false |} in
  ∃ h', Merge growslice 0 (ChatChannelDataMsg 1) (Some opts) n h = (Panic slice_bounds, h').
Proof. intros h opts. eexists. reflexivity. Qed.
End MergeProofs.

(** ** [ChatChannelData.Merge]: the scenarios *)

(** Scenario C on chat messages: [a,b,c] merged with [d,e] under limit 4
    keeps [a,b,c,d]. *)
Lemma Merge_truncate_direction_witness :
  ∃ h' D', Merge exact_fit 0 (ChatChannelDataMsg 1) (Some limit_4) NilNotifier two_chats
             = (Done None, h') ∧
    objects h' !! 0 = Some D' ∧
    elems h' (ChatMessages D') = [Ptr 1; Ptr 2; Ptr 3; Ptr 4].
Proof.
  apply (Merge_truncate_direction exact_fit two_chats 0 1
           (chat (Slice (Some 0) 0 3 3)) (chat (Slice (Some 1) 0 2 2))
           limit_4 NilNotifier);
    compute_done.
Defined.

(** Scenario D on chat messages: merging [d,e] again with [TruncateTop]
    keeps [c,d,d,e]. *)
Example Merge_scenario_D :
  let h1 := (Merge exact_fit 0 (ChatChannelDataMsg 1) (Some limit_4) NilNotifier two_chats).2 in
  let r := Merge exact_fit 0 (ChatChannelDataMsg 1) (Some limit_4_top) NilNotifier h1 in
  r.1 = Done None ∧
  (λ o, elems r.2 (ChatMessages o)) <$> objects r.2 !! 0 = Some [Ptr 3; Ptr 4; Ptr 4; Ptr 5].
Proof. split; reflexivity. Qed.

(** Scenario F on chat messages: a src of another message type. *)
Lemma Merge_type_mismatch_witness :
  Merge exact_fit 0 (OtherMsg "channeldpb.TestChannelDataMessage" 1) (Some limit_4)
        NilNotifier two_chats
  = (Done (Some (errors_New "src is not a ChatChannelData")), two_chats).
Proof. apply (Merge_type_mismatch exact_fit). reflexivity. Defined.

(** A payload of one message merged into itself in replace mode. *)
Lemma Merge_replace_self_witness :
  ∃ h' P', Merge exact_fit 0 (ChatChannelDataMsg 0) (Some replace_list) NilNotifier one_chat
             = (Done None, h') ∧
    objects h' !! 0 = Some P' ∧
    elems h' (ChatMessages P') = [Ptr 1].
Proof.
  apply (Merge_replace_self exact_fit one_chat 0 (chat (Slice (Some 0) 0 1 1))
           replace_list NilNotifier);
    compute_done.
Defined.



(** It also fails for two objects when src's cells lie in the unused
    capacity of dst's array: the append copies src over itself, shifted. *)
Lemma Merge_shared_array_changes_src :
  let r := Merge exact_fit 0 (ChatChannelDataMsg 1) (Some default_options) NilNotifier shared_array in
  r.1 = Done None ∧
  objects r.2 !! 1 = objects shared_array !! 1 ∧
  elems shared_array (Slice (Some 0) 2 2 2) = [Ptr 3; Ptr 4] ∧
  elems r.2 (Slice (Some 0) 2 2 2) = [Ptr 4; Ptr 4].
Proof. split_and!; reflexivity. Qed.
(** ** The engine of the design document: proofs *)

(** *** The merger

    What the merged map holds at a key. *)
Lemma lookup_merge_map options (dst src : gmap Z (option StringWrapper)) (k : Z) :
  merge_map options dst src !! k =
  match src !! k with
  | Some (Some w) =>
      if ShouldCheckRemovableMapField options && Removed w then None else Some (Some w)
  | _ => dst !! k
  end.
Proof.
  unfold merge_map. revert k.
  apply (map_fold_weak_ind (λ r m, ∀ k, r !! k = match m !! k with
    | Some (Some w) =>
        if ShouldCheckRemovableMapField options && Removed w then None else Some (Some w)
    | _ => dst !! k end)).
  - intros k. by rewrite lookup_empty.
  - intros i x m r Hi IH k. unfold merge_entry.
    destruct (decide (i = k)) as [->|Hne].
    + rewrite lookup_insert_eq. destruct x as [w|].
      * destruct (ShouldCheckRemovableMapField options && Removed w).
        -- apply lookup_delete_eq.
        -- apply lookup_insert_eq.
      * rewrite IH, Hi. done.
    + rewrite (lookup_insert_ne m) by done. destruct x as [w|]; [|apply IH].
      destruct (ShouldCheckRemovableMapField options && Removed w).
      * rewrite lookup_delete_ne by done. apply IH.
      * rewrite lookup_insert_ne by done. apply IH.
Qed.


(** Truncation absorbs an earlier truncation of either part of a list. *)
Lemma truncate_list_alt options l :
  truncate_list options l =
  let limit := N.to_nat (ListSizeLimit options) in
  if decide (limit = 0) then l
  else if TruncateTop options then drop (length l - limit) l else take limit l.
Proof.
  unfold truncate_list. cbv zeta.
  set (limit := N.to_nat (ListSizeLimit options)).
  destruct (decide (limit = 0)) as [H0|H0].
  - rewrite decide_False by lia. done.
  - case_decide as Hlong; [done|].
    destruct (TruncateTop options).
    + replace (length l - limit) with 0 by lia. done.
    + rewrite take_ge by lia. done.
Qed.

Lemma truncate_list_app_l options a b :
  truncate_list options (truncate_list options a ++ b) = truncate_list options (a ++ b).
Proof.
  rewrite !truncate_list_alt. cbv zeta.
  set (L := N.to_nat (ListSizeLimit options)).
  case_decide as H0; [done|].
  destruct (TruncateTop options).
  - rewrite !drop_app, !drop_drop, !length_app, !length_drop.
    f_equal; f_equal; lia.
  - rewrite !take_app, take_take, length_take. f_equal; f_equal; lia.
Qed.

Lemma truncate_list_app_r options a b :
  truncate_list options (a ++ truncate_list options b) = truncate_list options (a ++ b).
Proof.
  rewrite !truncate_list_alt. cbv zeta.
  set (L := N.to_nat (ListSizeLimit options)).
  case_decide as H0; [done|].
  destruct (TruncateTop options).
  - destruct (decide (length b ≤ L)) as [Hb|Hb].
    { replace (length b - L) with 0 by lia. done. }
    rewrite !drop_app, !drop_drop, !length_app, !length_drop.
    rewrite !(drop_ge a) by lia. f_equal. f_equal. lia.
  - rewrite !take_app, take_take. do 2 f_equal. lia.
Qed.

Lemma truncate_list_idemp options l :
  truncate_list options (truncate_list options l) = truncate_list options l.
Proof.
  transitivity (truncate_list options (truncate_list options l ++ [])).
  - by rewrite app_nil_r.
  - by rewrite truncate_list_app_l, app_nil_r.
Qed.


(** Merging is associative field by field, for scalars and lists. *)
Lemma merge_scalar_assoc {A} (d x u : option A) :
  merge_scalar d (merge_scalar x u) = merge_scalar (merge_scalar d x) u.
Proof. by destruct u. Qed.

Lemma merge_list_assoc options d x u :
  merge_list options d (merge_list options x u) =
  merge_list options (merge_list options d x) u.
Proof.
  unfold merge_list. destruct (ShouldReplaceList options).
  - apply truncate_list_idemp.
  - by rewrite truncate_list_app_l, truncate_list_app_r, app_assoc.
Qed.

(** An empty list merged first makes no difference to what a later merge
    leaves. *)
Lemma merge_list_nil_then options d u :
  merge_list options (merge_list options d []) u = merge_list options d u.
Proof.
  unfold merge_list. destruct (ShouldReplaceList options); [done|].
  by rewrite app_nil_r, truncate_list_app_l.
Qed.

Lemma Payload_eq (p q : Payload) :
  Text p = Text q → Num p = Num q → List p = List q → Kv p = Kv q → p = q.
Proof. destruct p, q. cbn. by intros -> -> -> ->. Qed.

(** *** The update log *)

Lemma coalesce_snoc options into us u :
  coalesce options into (us ++ [u]) =
  mergeWithOptions (coalesce options into us) (delta u) options.
Proof. unfold coalesce. by rewrite foldl_snoc. Qed.

Lemma last_entry_snoc k us u :
  last_entry k (us ++ [u]) =
  match Kv (delta u) !! k with
  | Some (Some w) => Some w
  | _ => last_entry k us
  end.
Proof. unfold last_entry. by rewrite foldl_snoc. Qed.

(** The scalars and the list of the coalesced payload merge into dst as the
    updates do one by one. *)
Lemma Text_merge_coalesced options dst us :
  Text (mergeWithOptions dst (coalesce options empty_payload us) options) =
  Text (coalesce options dst us).
Proof.
  induction us as [|u us IH] using rev_ind; [done|].
  rewrite !coalesce_snoc. cbn [mergeWithOptions Text] in *.
  by rewrite merge_scalar_assoc, IH.
Qed.

Lemma Num_merge_coalesced options dst us :
  Num (mergeWithOptions dst (coalesce options empty_payload us) options) =
  Num (coalesce options dst us).
Proof.
  induction us as [|u us IH] using rev_ind; [done|].
  rewrite !coalesce_snoc. cbn [mergeWithOptions Num] in *.
  by rewrite merge_scalar_assoc, IH.
Qed.

Lemma List_merge_coalesced options dst us :
  us ≠ [] →
  List (mergeWithOptions dst (coalesce options empty_payload us) options) =
  List (coalesce options dst us).
Proof.
  induction us as [|u us IH] using rev_ind; [done|]. intros _.
  rewrite !coalesce_snoc. cbn [mergeWithOptions List] in *.
  rewrite merge_list_assoc. destruct us as [|u' us'].
  - cbn. apply merge_list_nil_then.
  - by rewrite IH.
Qed.

(** What the map holds at a key after the updates were merged one by one:
    what their last entry for the key makes of it. *)
Lemma lookup_coalesce options into us k :
  Kv (coalesce options into us) !! k =
  match last_entry k us with
  | Some w =>
      if ShouldCheckRemovableMapField options && Removed w then None else Some (Some w)
  | None => Kv into !! k
  end.
Proof.
  induction us as [|u us IH] using rev_ind; [done|].
  rewrite coalesce_snoc, last_entry_snoc. cbn [mergeWithOptions Kv].
  rewrite lookup_merge_map. by destruct (Kv (delta u) !! k) as [[w|]|].
Qed.

(** The map of the coalesced payload merged into dst: a key whose last
    entry is marked removed is in the coalesced payload no more, and dst
    keeps what it holds there. *)
Lemma lookup_merge_coalesced options dst us k :
  Kv (mergeWithOptions dst (coalesce options empty_payload us) options) !! k =
  match last_entry k us with
  | Some w =>
      if ShouldCheckRemovableMapField options && Removed w then Kv dst !! k
      else Some (Some w)
  | None => Kv dst !! k
  end.
Proof.
  cbn [mergeWithOptions Kv]. rewrite lookup_merge_map, lookup_coalesce.
  destruct (last_entry k us) as [w|]; [|done].
  by destruct (ShouldCheckRemovableMapField options && Removed w) eqn:Hdel; [|rewrite Hdel].
Qed.

Lemma merge_coalesced options dst us :
  us ≠ [] →
  mergeWithOptions dst (coalesce options empty_payload us) options = coalesce options dst us
  ↔ removes_no_key_of options dst us.
Proof.
  intros Hus. split.
  - intros Heq Hcheck k v Hk.
    apply (f_equal (λ p, Kv p !! k)) in Heq.
    rewrite lookup_merge_coalesced, lookup_coalesce in Heq.
    destruct (last_entry k us) as [w|]; [|done].
    rewrite Hcheck in Heq. destruct (Removed w); [|done].
    cbn in Heq. congruence.
  - intros Hkeep. apply Payload_eq.
    + apply Text_merge_coalesced.
    + apply Num_merge_coalesced.
    + by apply List_merge_coalesced.
    + apply map_eq. intros k. rewrite lookup_merge_coalesced, lookup_coalesce.
      destruct (last_entry k us) as [w|] eqn:Hlast; [|done].
      destruct (ShouldCheckRemovableMapField options) eqn:Hcheck; [|done].
      destruct (Removed w) eqn:Hw; [|done]. cbn.
      destruct (Kv dst !! k) as [v|] eqn:Hk; [|done].
      specialize (Hkeep Hcheck k v Hk). cbn in Hkeep. rewrite Hlast in Hkeep. congruence.
Qed.

(** The extent of the coalescing equivalence. For a cursor k within the
    log, merging what [SliceSince k] returns into dst (nothing, when it
    returns no payload) equals merging the updates from k on into dst one by
    one, in order, if and only if these updates delete no key that dst holds:
    folded into the empty payload, a removal leaves no trace. *)
Theorem coalescing_equivalence_extent (d : ChannelData) (k : nat) (dst : Payload) :
  k ≤ length (updateLog d) →
  merge_slice (mergeOptions d) dst (SliceSince d k).1 =
    coalesce (mergeOptions d) dst (drop k (updateLog d))
  ↔ removes_no_key_of (mergeOptions d) dst (drop k (updateLog d)).
Proof.
  intros Hk. unfold SliceSince. case_decide as Hend.
  - subst k. rewrite drop_all. cbn. split; [|done].
    intros _ _ x v _. done.
  - cbn. apply merge_coalesced.
    intros Hnil. apply (f_equal length) in Hnil. rewrite length_drop in Hnil.
    simpl in Hnil. lia.
Qed.

(** For an empty dst the equivalence holds on every log. *)
Lemma coalescing_into_empty (d : ChannelData) (k : nat) (dst : Payload) :
  k ≤ length (updateLog d) → Kv dst = ∅ →
  merge_slice (mergeOptions d) dst (SliceSince d k).1 =
    coalesce (mergeOptions d) dst (drop k (updateLog d)).
Proof.
  intros Hk Hempty. apply coalescing_equivalence_extent; [done|].
  intros _. rewrite Hempty. apply map_Forall_empty.
Qed.

(** *** The fan-out scheduler

    What one tick sends to a connection is what the loop body sends for its
    subscription. *)
Lemma delivered_cons c m sent :
  delivered c (m :: sent) =
  if decide (m.1 = c) then m.2 :: delivered c sent else delivered c sent.
Proof. unfold delivered. rewrite filter_cons. by case_decide. Qed.

Lemma delivered_app c sent1 sent2 :
  delivered c (sent1 ++ sent2) = delivered c sent1 ++ delivered c sent2.
Proof. unfold delivered. by rewrite filter_app, fmap_app. Qed.

Lemma fan_out_connection d now s : connection (fan_out d now s).1 = connection s.
Proof.
  unfold fan_out. case_decide; [done|].
  destruct (hasReceivedInitial s); [|done]. by destruct (SliceSince d (cursorIndex s)).
Qed.

Lemma delivered_absent d now subs c :
  c ∉ connection <$> subs →
  delivered c (omap (λ s, (connection s,.) <$> (fan_out d now s).2) subs) = [].
Proof.
  induction subs as [|s subs IH]; [done|].
  rewrite fmap_cons, not_elem_of_cons. intros [Hne Hnot]. cbn [omap list_omap].
  destruct (fan_out d now s).2 as [p|]; cbn; [|by apply IH].
  rewrite delivered_cons, decide_False by done. by apply IH.
Qed.

Lemma delivered_present d now subs s :
  NoDup (connection <$> subs) → s ∈ subs →
  delivered (connection s) (omap (λ s, (connection s,.) <$> (fan_out d now s).2) subs) =
  option_list (fan_out d now s).2.
Proof.
  induction subs as [|s' subs IH]; [by intros _ ?%elem_of_nil|].
  rewrite fmap_cons, NoDup_cons. intros [Hnot Hnd] Hin. cbn [omap list_omap].
  apply elem_of_cons in Hin as [->|Hin].
  - destruct (fan_out d now s').2 as [p|]; cbn.
    + rewrite delivered_cons, decide_True by done. cbn. f_equal. by apply delivered_absent.
    + by apply delivered_absent.
  - assert (connection s' ≠ connection s).
    { intros E. apply Hnot. rewrite E. by apply list_elem_of_fmap_2. }
    destruct (fan_out d now s').2 as [p|]; cbn; [|by apply IH].
    rewrite delivered_cons, decide_False by done. by apply IH.
Qed.

(** Pruning keeps every cursor within the log. *)
Lemma min_cursor_le_length d subs : min_cursor d subs ≤ length (updateLog d).
Proof. unfold min_cursor. induction subs as [|s subs IH]; cbn [foldr]; lia. Qed.

Lemma min_cursor_le d subs s : s ∈ subs → min_cursor d subs ≤ cursorIndex s.
Proof.
  induction subs as [|s' subs IH]; [by intros ?%elem_of_nil|].
  unfold min_cursor in *.
  intros [->|Hin]%elem_of_cons; cbn [foldr]; [lia|]. specialize (IH Hin). lia.
Qed.

Lemma fan_out_cursor_le d now s :
  cursorIndex s ≤ length (updateLog d) →
  cursorIndex (fan_out d now s).1 ≤ length (updateLog d).
Proof.
  intros Hle. unfold fan_out. case_decide; [done|].
  destruct (hasReceivedInitial s); [|done].
  unfold SliceSince. case_decide; cbn; lia.
Qed.

Lemma wf_Tick ch now : wf_channel ch → wf_channel (Tick ch now).1.
Proof.
  intros [Hnd Hall]. split; cbn.
  - rewrite <-!list_fmap_compose.
    erewrite list_fmap_ext; [exact Hnd|]. intros i s _. cbn. apply fan_out_connection.
  - rewrite length_drop. apply Forall_fmap, Forall_fmap.
    eapply Forall_impl; [exact Hall|]. intros s Hs. cbn.
    pose proof (fan_out_cursor_le (data ch) now s Hs). lia.
Qed.

Lemma wf_handle ch r : wf_channel ch → wf_channel (handle ch r).1.
Proof.
  intros Hwf. destruct r as [u t from|conn options|conn|now]; cbn [handle fst].
  - destruct Hwf as [Hnd Hall]. split; [done|]. cbn.
    eapply Forall_impl; [exact Hall|]. intros s Hs. cbn in Hs.
    unfold OnUpdate. case_decide; cbn; [done|]. rewrite length_app. lia.
  - destruct Hwf as [Hnd Hall]. split; cbn.
    + case_decide as Hin.
      * rewrite <-list_fmap_compose. erewrite list_fmap_ext; [exact Hnd|].
        intros i s _. cbn. unfold resubscribe. by case_decide.
      * rewrite fmap_app. apply NoDup_app. split; [done|]. split.
        -- intros x Hx [->|[]%elem_of_nil]%elem_of_cons. done.
        -- apply NoDup_singleton.
    + case_decide as Hin.
      * apply Forall_fmap. eapply Forall_impl; [exact Hall|]. intros s Hs. cbn.
        unfold resubscribe. by case_decide.
      * apply Forall_app. split; [done|]. by apply Forall_singleton.
  - destruct Hwf as [Hnd Hall]. split; cbn.
    + apply (NoDup_fmap_2_strong connection).
      * intros s1 s2 [_ H1]%list_elem_of_filter [_ H2]%list_elem_of_filter E.
        clear -Hnd H1 H2 E. revert H1 H2.
        induction (subscriptions ch) as [|s l IH]; [by intros ?%elem_of_nil|].
        rewrite fmap_cons, NoDup_cons in Hnd. destruct Hnd as [Hs Hl].
        intros [->|H1]%elem_of_cons [->|H2]%elem_of_cons; [done| | |by apply IH].
        -- exfalso. apply Hs. rewrite E. by apply list_elem_of_fmap_2.
        -- exfalso. apply Hs. rewrite <-E. by apply list_elem_of_fmap_2.
      * apply NoDup_filter. by eapply NoDup_fmap_1.
    + rewrite Forall_forall in Hall |- *.
      intros s [_ Hs]%list_elem_of_filter. by apply Hall.
  - by apply wf_Tick.
Qed.

(** The loop body on a subscription before and after its first fan-out. *)
Lemma fan_out_first d now s :
  hasReceivedInitial s = false →
  ((fan_out d now s).2 = None ∧ (fan_out d now s).1 = s) ∨
  ((fan_out d now s).2 = Some (current d) ∧
   hasReceivedInitial (fan_out d now s).1 = true ∧
   cursorIndex (fan_out d now s).1 = length (updateLog d)).
Proof. intros Hs. unfold fan_out. rewrite Hs. case_decide; cbn; auto. Qed.

Lemma fan_out_later d now s :
  hasReceivedInitial s = true →
  cursorIndex s ≤ length (updateLog d) →
  hasReceivedInitial (fan_out d now s).1 = true ∧
  (((fan_out d now s).2 = None ∧ cursorIndex (fan_out d now s).1 = cursorIndex s) ∨
   ((fan_out d now s).2 =
      Some (coalesce (mergeOptions d) empty_payload (drop (cursorIndex s) (updateLog d))) ∧
    cursorIndex (fan_out d now s).1 = length (updateLog d))).
Proof.
  intros Hs Hle. unfold fan_out. rewrite Hs. case_decide; cbn; [auto|].
  unfold SliceSince. case_decide; cbn; auto.
Qed.

Lemma Tick_subscription ch now s :
  s ∈ subscriptions ch →
  shift_cursor (min_cursor (data ch) ((λ s, (fan_out (data ch) now s).1) <$> subscriptions ch))
    (fan_out (data ch) now s).1 ∈ subscriptions (Tick ch now).1.
Proof.
  intros Hin. cbn. apply list_elem_of_fmap_2.
  by apply (list_elem_of_fmap_2 (λ s, (fan_out (data ch) now s).1)).
Qed.

Lemma delivered_Tick ch now s :
  wf_channel ch → s ∈ subscriptions ch →
  delivered (connection s) (Tick ch now).2 = option_list (fan_out (data ch) now s).2.
Proof. intros [Hnd _] Hin. cbn. by apply delivered_present. Qed.

Lemma delivered_Tick_absent ch now c :
  c ∉ connection <$> subscriptions ch → delivered c (Tick ch now).2 = [].
Proof. intros Hc. cbn. by apply delivered_absent. Qed.

Lemma wf_run ch rs : wf_channel ch → wf_channel (run ch rs).1.
Proof.
  revert ch. induction rs as [|r rs IH]; intros ch Hwf; [done|]. cbn [run].
  pose proof (wf_handle ch r Hwf) as Hwf1.
  destruct (handle ch r) as [ch1 sent1]. specialize (IH ch1 Hwf1).
  by destruct (run ch1 rs).
Qed.

(** A connection that receives nothing keeps waiting for its first
    fan-out. *)
Lemma waiting_handle ch r c :
  wf_channel ch → waiting c ch → r ≠ ReqUnsubscribe c →
  delivered c (handle ch r).2 = [] → waiting c (handle ch r).1.
Proof.
  intros Hwf (s & Hin & Hc & Hfirst) Hr Hquiet.
  destruct r as [u t from|conn options|conn|now]; cbn [handle fst snd] in *.
  - by exists s.
  - unfold waiting, Subscribe. cbn [subscriptions]. case_decide.
    + exists (resubscribe ch conn options s). split; [by apply list_elem_of_fmap_2|].
      unfold resubscribe. by case_decide.
    + exists s. split; [|done]. apply elem_of_app. by left.
  - exists s. split; [|done]. unfold Unsubscribe. cbn [subscriptions].
    apply list_elem_of_filter. split; [|done]. rewrite Hc. congruence.
  - subst c. rewrite (delivered_Tick ch now s Hwf Hin) in Hquiet.
    destruct (fan_out_first (data ch) now s Hfirst) as [[Hnone Hsame]|[Hsome _]].
    + eexists. split; [by apply Tick_subscription|]. by rewrite Hsame.
    + by rewrite Hsome in Hquiet.
Qed.

Lemma waiting_run ch rs c :
  wf_channel ch → waiting c ch → ReqUnsubscribe c ∉ rs →
  delivered c (run ch rs).2 = [] → waiting c (run ch rs).1.
Proof.
  revert ch. induction rs as [|r rs IH]; intros ch Hwf Hw Hkeep Hquiet; [done|].
  apply not_elem_of_cons in Hkeep as [Hr Hkeep]. cbn [run] in *.
  pose proof (wf_handle ch r Hwf) as Hwf1.
  pose proof (waiting_handle ch r c Hwf Hw (not_eq_sym Hr)) as Hw1.
  destruct (handle ch r) as [ch1 sent1]. specialize (IH ch1 Hwf1).
  destruct (run ch1 rs) as [ch2 sent2]. cbn [fst snd] in *.
  rewrite delivered_app in Hquiet. apply app_eq_nil in Hquiet as [Hq1 Hq2]. auto.
Qed.

Lemma waiting_Tick ch now c :
  wf_channel ch → waiting c ch → delivered c (Tick ch now).2 ≠ [] →
  delivered c (Tick ch now).2 = [current (data ch)].
Proof.
  intros Hwf (s & Hin & <- & Hfirst) Hsent.
  rewrite (delivered_Tick ch now s Hwf Hin) in *.
  destruct (fan_out_first (data ch) now s Hfirst) as [[Hnone _]|[Hsome _]].
  - by rewrite Hnone in Hsent.
  - by rewrite Hsome.
Qed.

(** After a tick that delivered to it, a connection has had its first
    fan-out and its cursor is at the end of the log. *)
Lemma Tick_caught_up ch now c :
  wf_channel ch → delivered c (Tick ch now).2 ≠ [] →
  ∃ s, s ∈ subscriptions (Tick ch now).1 ∧ connection s = c ∧
       hasReceivedInitial s = true ∧
       cursorIndex s = length (updateLog (data (Tick ch now).1)).
Proof.
  intros Hwf Hsent.
  destruct (decide (c ∈ connection <$> subscriptions ch)) as [Hc|Hc].
  2:{ by rewrite delivered_Tick_absent in Hsent. }
  apply list_elem_of_fmap in Hc as (s & -> & Hin).
  rewrite (delivered_Tick ch now s Hwf Hin) in Hsent.
  assert (Hle : cursorIndex s ≤ length (updateLog (data ch))).
  { destruct Hwf as [_ Hall]. rewrite Forall_forall in Hall. by apply Hall. }
  eexists. split; [by apply Tick_subscription|].
  cbn. rewrite length_drop. split; [apply fan_out_connection|].
  destruct (hasReceivedInitial s) eqn:Hs.
  - destruct (fan_out_later (data ch) now s Hs Hle) as [Ht [[Hnone _]|[_ Hcur]]].
    + by rewrite Hnone in Hsent.
    + by rewrite Hcur.
  - destruct (fan_out_first (data ch) now s Hs) as [[Hnone _]|(_ & Ht & Hcur)].
    + by rewrite Hnone in Hsent.
    + by rewrite Hcur.
Qed.

(** A connection that receives nothing accumulates the logged updates
    behind its cursor. *)
Lemma logged_cons ch r rs :
  logged (lastUpdateTime (data ch)) (r :: rs) =
  logged (lastUpdateTime (data ch)) [r] ++
  logged (lastUpdateTime (data (handle ch r).1)) rs.
Proof.
  destruct r as [u t from|conn options|conn|now]; cbn [logged handle fst]; try done.
  unfold OnUpdate. case_decide; cbn; done.
Qed.

Lemma mergeOptions_handle ch r :
  mergeOptions (data (handle ch r).1) = mergeOptions (data ch).
Proof.
  destruct r as [u t from|conn options|conn|now]; cbn; try done.
  unfold OnUpdate. by case_decide.
Qed.

Lemma mergeOptions_run ch rs :
  mergeOptions (data (run ch rs).1) = mergeOptions (data ch).
Proof.
  revert ch. induction rs as [|r rs IH]; intros ch; [done|]. cbn [run].
  pose proof (mergeOptions_handle ch r) as H1.
  destruct (handle ch r) as [ch1 sent1]. specialize (IH ch1).
  destruct (run ch1 rs). cbn in *. congruence.
Qed.

Lemma tracking_handle ch r c pending :
  wf_channel ch → tracking c ch pending → r ≠ ReqUnsubscribe c →
  delivered c (handle ch r).2 = [] →
  tracking c (handle ch r).1 (pending ++ logged (lastUpdateTime (data ch)) [r]).
Proof.
  intros Hwf (s & Hin & Hc & Hlater & Hpending) Hr Hquiet.
  assert (Hle : cursorIndex s ≤ length (updateLog (data ch))).
  { destruct Hwf as [_ Hall]. rewrite Forall_forall in Hall. by apply Hall. }
  destruct r as [u t from|conn options|conn|now]; cbn [handle fst snd logged] in *.
  - exists s. split_and!; [done..|]. cbn [data]. unfold OnUpdate.
    case_decide; cbn [fst updateLog].
    + by rewrite app_nil_r.
    + rewrite drop_app_le by done. by rewrite Hpending.
  - rewrite app_nil_r. unfold tracking, Subscribe. cbn [subscriptions data]. case_decide.
    + exists (resubscribe ch conn options s). split; [by apply list_elem_of_fmap_2|].
      unfold resubscribe. by case_decide.
    + exists s. split; [|done]. apply elem_of_app. by left.
  - rewrite app_nil_r. exists s. split; [|done]. unfold Unsubscribe. cbn [subscriptions].
    apply list_elem_of_filter. split; [|done]. rewrite Hc. congruence.
  - rewrite app_nil_r. subst c.
    rewrite (delivered_Tick ch now s Hwf Hin) in Hquiet.
    destruct (fan_out_later (data ch) now s Hlater Hle) as [Ht [[_ Hcur]|[Hsome _]]].
    2:{ by rewrite Hsome in Hquiet. }
    eexists. split; [by apply Tick_subscription|].
    cbn. split_and!; [apply fan_out_connection|done|].
    rewrite Hcur, drop_drop.
    set (m := min_cursor _ _).
    assert (m ≤ cursorIndex s) as Hm.
    { rewrite <-Hcur. apply min_cursor_le.
      by apply (list_elem_of_fmap_2 (λ s, (fan_out (data ch) now s).1)). }
    replace (m + (cursorIndex s - m)) with (cursorIndex s) by lia. done.
Qed.

Lemma tracking_run ch rs c pending :
  wf_channel ch → tracking c ch pending → ReqUnsubscribe c ∉ rs →
  delivered c (run ch rs).2 = [] →
  tracking c (run ch rs).1 (pending ++ logged (lastUpdateTime (data ch)) rs).
Proof.
  revert ch pending. induction rs as [|r rs IH]; intros ch pending Hwf Ht Hkeep Hquiet.
  { cbn. by rewrite app_nil_r. }
  apply not_elem_of_cons in Hkeep as [Hr Hkeep]. rewrite logged_cons. cbn [run] in *.
  pose proof (wf_handle ch r Hwf) as Hwf1.
  pose proof (tracking_handle ch r c pending Hwf Ht (not_eq_sym Hr)) as Ht1.
  destruct (handle ch r) as [ch1 sent1].
  specialize (IH ch1 (pending ++ logged (lastUpdateTime (data ch)) [r]) Hwf1).
  destruct (run ch1 rs) as [ch2 sent2]. cbn [fst snd] in *.
  rewrite delivered_app in Hquiet. apply app_eq_nil in Hquiet as [Hq1 Hq2].
  rewrite app_assoc. auto.
Qed.

Lemma tracking_Tick ch now c pending :
  wf_channel ch → tracking c ch pending → delivered c (Tick ch now).2 ≠ [] →
  delivered c (Tick ch now).2 = [coalesce (mergeOptions (data ch)) empty_payload pending].
Proof.
  intros Hwf (s & Hin & <- & Hlater & <-) Hsent.
  assert (Hle : cursorIndex s ≤ length (updateLog (data ch))).
  { destruct Hwf as [_ Hall]. rewrite Forall_forall in Hall. by apply Hall. }
  rewrite (delivered_Tick ch now s Hwf Hin) in *.
  destruct (fan_out_later (data ch) now s Hlater Hle) as [_ [[Hnone _]|[Hsome _]]].
  - by rewrite Hnone in Hsent.
  - by rewrite Hsome.
Qed.

Lemma wf_Subscribe ch c options : wf_channel ch → wf_channel (Subscribe ch c options).
Proof. apply (wf_handle ch (ReqSubscribe c options)). Qed.

Lemma waiting_Subscribe ch c options :
  c ∉ connection <$> subscriptions ch → waiting c (Subscribe ch c options).
Proof.
  intros Hc. exists (New ch c options). split; [|done].
  unfold Subscribe. cbn [subscriptions]. rewrite decide_False by done.
  apply elem_of_app. right. by apply list_elem_of_singleton.
Qed.

(** C7. First-fire snapshot, then deltas. Let a connection join a channel.
    As long as it does not unsubscribe: the first tick that delivers to it
    delivers exactly one payload, the channel's current payload at that tick,
    and leaves its cursor at the end of the log; and after any tick that
    delivered to it, the next tick that delivers to it delivers exactly one
    payload, the updates logged since the previous delivery merged in order
    into an empty payload. *)
Theorem fan_out_snapshot_then_deltas (ch : Channel) (c : nat)
    (options : ChannelSubscriptionOptions) :
  wf_channel ch →
  c ∉ connection <$> subscriptions ch →
  let joined := Subscribe ch c options in
  (∀ rs now,
     ReqUnsubscribe c ∉ rs →
     let before := run joined rs in
     delivered c before.2 = [] →
     delivered c (Tick before.1 now).2 ≠ [] →
     delivered c (Tick before.1 now).2 = [current (data before.1)] ∧
     ∃ s, s ∈ subscriptions (Tick before.1 now).1 ∧ connection s = c ∧
          cursorIndex s = length (updateLog (data (Tick before.1 now).1))) ∧
  (∀ rs now rs' now',
     let previous := Tick (run joined rs).1 now in
     delivered c previous.2 ≠ [] →
     ReqUnsubscribe c ∉ rs' →
     let between := run previous.1 rs' in
     delivered c between.2 = [] →
     delivered c (Tick between.1 now').2 ≠ [] →
     delivered c (Tick between.1 now').2 =
       [coalesce (mergeOptions (data ch)) empty_payload
          (logged (lastUpdateTime (data previous.1)) rs')]).
Proof.
  intros Hwf Hc joined.
  assert (Hwfj : wf_channel joined) by by apply wf_Subscribe.
  split.
  - intros rs now Hkeep before Hquiet Hsent.
    assert (Hwfb : wf_channel before.1) by by apply wf_run.
    split.
    + apply waiting_Tick; [done| |done].
      apply waiting_run; [done| |done|done]. by apply waiting_Subscribe.
    + destruct (Tick_caught_up before.1 now c Hwfb Hsent) as (s & ? & ? & _ & ?). eauto.
  - intros rs now rs' now' previous Hprev Hkeep between Hquiet Hsent.
    assert (Hwfr : wf_channel (run joined rs).1) by by apply wf_run.
    assert (Hwfp : wf_channel previous.1) by by apply wf_Tick.
    assert (Hwfb : wf_channel between.1) by by apply wf_run.
    assert (Htr : tracking c previous.1 []).
    { destruct (Tick_caught_up _ now c Hwfr Hprev) as (s & Hin & Hcs & Hlater & Hcur).
      exists s. split_and!; [done..|]. fold previous in Hcur. rewrite Hcur. apply drop_all. }
    pose proof (tracking_run previous.1 rs' c [] Hwfp Htr Hkeep Hquiet) as Htb.
    rewrite (tracking_Tick between.1 now' c _ Hwfb Htb Hsent).
    unfold between, previous. rewrite mergeOptions_run. cbn [Tick fst data PruneBefore mergeOptions].
    rewrite mergeOptions_run. done.
Qed.

(** ** The engine of the design document: the scenarios *)

(** Scenario B. *)
Example scenario_B :
  List (mergeWithOptions merge_dst merge_src replace_list) = ["d"; "e"].
Proof. reflexivity. Qed.

(** Scenarios C and D. *)
Example scenario_C :
  List (mergeWithOptions merge_dst merge_src limit_4) = ["a"; "b"; "c"; "d"].
Proof. reflexivity. Qed.

Example scenario_D :
  List (mergeWithOptions (mergeWithOptions merge_dst merge_src limit_4) merge_src limit_4_top)
  = ["c"; "d"; "d"; "e"].
Proof. reflexivity. Qed.

(** Scenario E. *)
Example scenario_E :
  Kv (mergeWithOptions merge_dst merge_src removable) = {[ 2%Z := Some (wrapper "bbb") ]}.
Proof. reflexivity. Qed.



(** A nil value of src over a key that dst holds keeps dst's value. *)
Example nil_entry_keeps_dst :
  Kv (mergeWithOptions merge_dst nil_at_1 removable) = Kv merge_dst.
Proof. reflexivity. Qed.


(** The same through the scheduler: a subscriber that has the snapshot is
    sent an empty payload for the removal, so the view it merges keeps
    key 1. *)
Example removal_not_fanned_out :
  let ch := {| data := Init merge_dst removable; subscriptions := [];
               tickInterval := ms 3600000; clock := 0 |} in
  let after := run ch [ReqSubscribe 1 {| FanOutIntervalMs := 50 |}; ReqTick (ms 100);
                       ReqUpdate removal_of_1 (ms 160) None; ReqTick (ms 200)] in
  delivered 1 after.2 = [merge_dst; empty_payload] ∧
  Kv (coalesce removable empty_payload
        ((λ p, {| timestamp := 0; delta := p; originator := None |}) <$> delivered 1 after.2))
    = {[ 1%Z := Some (wrapper "aa"); 2%Z := Some (wrapper "bb") ]} ∧
  Kv (current (data after.1)) = {[ 2%Z := Some (wrapper "bb") ]}.
Proof. split_and!; reflexivity. Qed.

(** The two updates of the fan-out test, coalesced from the start of the
    log and merged into the initial payload. *)
Lemma coalescing_two_updates :
  merge_slice (mergeOptions two_updates) (text_num (Some "a") (Some 1%Z))
    (SliceSince two_updates 0).1
  = coalesce (mergeOptions two_updates) (text_num (Some "a") (Some 1%Z))
      (drop 0 (updateLog two_updates)).
Proof. apply (coalescing_equivalence_extent two_updates 0); compute_done. Qed.

(** A removal that a later update of the log overwrites is harmless. *)
Example removal_overwritten :
  let d := (OnUpdate removal_logged
              {| Text := None; Num := None; List := [];
                 Kv := {[ 1%Z := Some (wrapper "new") ]} |} 2 None).1 in
  merge_slice (mergeOptions d) merge_dst (SliceSince d 0).1
  = coalesce (mergeOptions d) merge_dst (drop 0 (updateLog d)).
Proof. intros d. apply (coalescing_equivalence_extent d 0); compute_done. Qed.

Example coalesced_scenario_A :
  merge_slice (mergeOptions two_updates) (text_num (Some "a") (Some 1%Z))
    (SliceSince two_updates 0).1
  = text_num (Some "c") (Some 1%Z).
Proof. reflexivity. Qed.

(** Scenario A under the scheduler's pseudo-code: what the ticks at 100, 150,
    200 and 250 ms send, as (connection, text, num). Subscriber 2 joins at
    clock 100 ms with interval 100 ms, so it is due at 100, 200 and 300 ms:
    it gets its snapshot at the 150 ms tick and the first update at 200. *)
Example scenario_A :
  (λ m, (m.1, Text m.2, Num m.2)) <$>
    (run test_channel
       [ReqSubscribe 1 {| FanOutIntervalMs := 50 |}; ReqTick (ms 100);
        ReqSubscribe 2 {| FanOutIntervalMs := 100 |}; ReqTick (ms 150);
        ReqUpdate (text_num (Some "b") None) (ms 160) None; ReqTick (ms 200);
        ReqUpdate (text_num (Some "c") None) (ms 220) None; ReqTick (ms 250)]).2
  = [(1, Some "a", Some 1%Z); (2, Some "a", Some 1%Z);
     (1, Some "b", None); (2, Some "b", None); (1, Some "c", None)].
Proof. reflexivity. Qed.

(** The first subscriber of the fan-out test: its first fan-out is the
    initial payload, and after two updates without a tick it receives them
    coalesced. *)
Lemma fan_out_snapshot_then_deltas_witness :
  let joined := Subscribe test_channel 1 {| FanOutIntervalMs := 50 |} in
  let first := Tick joined (ms 100) in
  let between := run first.1 [ReqUpdate (text_num (Some "b") None) (ms 160) None;
                              ReqUpdate (text_num (Some "c") None) (ms 220) None] in
  delivered 1 first.2 = [text_num (Some "a") (Some 1%Z)] ∧
  delivered 1 (Tick between.1 (ms 250)).2 = [text_num (Some "c") None].
Proof.
  intros joined first between.
  destruct (fan_out_snapshot_then_deltas test_channel 1 {| FanOutIntervalMs := 50 |})
    as [Hfirst Hlater]; [compute_done..|].
  split.
  - destruct (Hfirst [] (ms 100)) as [Hsnap _]; [compute_done..|]. exact Hsnap.
  - etransitivity.
    + apply (Hlater [] (ms 100)
               [ReqUpdate (text_num (Some "b") None) (ms 160) None;
                ReqUpdate (text_num (Some "c") None) (ms 220) None] (ms 250));
        compute_done.
    + reflexivity.
Defined.

(** ** Further properties of [ChatChannelData.Merge] *)

Section MergeMore.
Context {Fields : Type}.
Variable growslice : nat → nat → nat.
Implicit Types (h : @store Fields) (s t u r : slice) (p q : nat).

Lemma separate_untouched_by d s n : separate d s → untouched d n s.
Proof. intros Hsep Harr Hfit. destruct Hsep as [?|[?|?]]; [done|lia|lia]. Qed.

(** [Merge] where the limit is guarded, with what it does to the rest of the
    store: every slice stays well-formed, and a slice the append does not
    write reads as before. *)
Lemma Merge_spec_frame h p q D S opts n :
  objects h !! p = Some D → objects h !! q = Some S →
  wf_slice h (ChatMessages D) → wf_slice h (ChatMessages S) →
  let cat := if ShouldReplaceList opts then elems h (ChatMessages S)
             else elems h (ChatMessages D) ++ elems h (ChatMessages S) in
  let L := N.to_nat (ListSizeLimit opts) in
  L = 0 ∨ TruncateTop opts = true ∨ L ≤ length cat →
  ∃ r h', Merge growslice p (ChatChannelDataMsg q) (Some opts) n h = (Done None, h') ∧
    objects h' = <[p := with_ChatMessages D r]> (objects h) ∧
    wf_slice h' r ∧
    elems h' r = limited opts cat ∧
    (∀ u, wf_slice h u → wf_slice h' u) ∧
    (∀ u, wf_slice h u →
       (ShouldReplaceList opts = false → untouched (ChatMessages D) (len (ChatMessages S)) u) →
       elems h' u = elems h u).
Proof.
  intros Hp Hq HwD HwS cat L Hcase.
  destruct (merge_lists_spec growslice h p q D S opts Hp Hq HwD HwS)
    as (r1 & h1 & Hrun1 & Hobj1 & Hwr1 & _ & Hel1 & Hwf1 & Hfr1).
  fold cat in Hel1.
  assert (Hp1 : objects h1 !! p = Some (with_ChatMessages D r1)).
  { rewrite Hobj1. apply list_lookup_insert_eq. by eapply lookup_lt_Some. }
  destruct (apply_limit_spec growslice h1 p _ opts Hp1) as (r & Hrun2 & Hwr & Hel).
  { done. } { simpl. rewrite Hel1. done. }
  simpl in Hel. rewrite Hel1 in Hel. fold L in Hel.
  rewrite Merge_unfold, run_bind, Hrun1, run_bind, Hrun2.
  eexists r, _. split; [reflexivity|]. cbn [objects]. split_and!.
  - rewrite Hobj1, list_insert_insert_eq. done.
  - by eapply wf_slice_arrays.
  - by rewrite (elems_arrays h1).
  - intros u Hu. eapply wf_slice_arrays; [done|]. by apply Hwf1.
  - intros u Hu Hun. rewrite (elems_arrays h1) by done. by apply Hfr1.
Qed.

(** X3. Without truncation: when there is no limit, or the merged list is no
    longer than the limit under [TruncateTop], or exactly as long as the
    limit, [Merge] returns nil and dst's list is dst's old list followed by
    src's (in replace mode: src's list), the same pointers in the same
    order; the other fields of dst are kept. *)
Theorem Merge_without_truncation h p q D S opts n :
  objects h !! p = Some D → objects h !! q = Some S →
  wf_slice h (ChatMessages D) → wf_slice h (ChatMessages S) →
  let cat := if ShouldReplaceList opts then elems h (ChatMessages S)
             else elems h (ChatMessages D) ++ elems h (ChatMessages S) in
  let L := N.to_nat (ListSizeLimit opts) in
  L = 0 ∨ (TruncateTop opts = true ∧ length cat ≤ L) ∨ length cat = L →
  ∃ h' D', Merge growslice p (ChatChannelDataMsg q) (Some opts) n h = (Done None, h') ∧
    objects h' !! p = Some D' ∧
    internal D' = internal D ∧
    elems h' (ChatMessages D') = cat.
Proof.
  intros Hp Hq HwD HwS cat L Hcase.
  destruct (Merge_spec_frame h p q D S opts n Hp Hq HwD HwS)
    as (r & h' & Hrun & Hobj & _ & Hel & _).
  { fold cat L. destruct Hcase as [?|[[? ?]|?]]; [by left|by right; left|right; right; lia]. }
  fold cat in Hel.
  exists h', (with_ChatMessages D r). split_and!; [done| |done|].
  { rewrite Hobj. apply list_lookup_insert_eq. by eapply lookup_lt_Some. }
  cbn [with_ChatMessages ChatMessages]. rewrite Hel. unfold limited. fold L.
  case_decide; [done|].
  destruct Hcase as [?|[[-> ?]|?]]; [done| |].
  - replace (length cat - L) with 0 by lia. done.
  - destruct (TruncateTop opts).
    + replace (length cat - L) with 0 by lia. done.
    + apply take_ge. lia.
Qed.
(** Limiting absorbs an earlier limiting of the front of a list. *)
Lemma limited_app_l opts (a b : list pointer) :
  limited opts (limited opts a ++ b) = limited opts (a ++ b).
Proof.
  unfold limited. cbv zeta. set (L := N.to_nat (ListSizeLimit opts)).
  case_decide as H0; [done|].
  destruct (TruncateTop opts).
  - rewrite !drop_app, !drop_drop, !length_app, !length_drop.
    f_equal; f_equal; lia.
  - rewrite !take_app, take_take, length_take. f_equal; f_equal; lia.
Qed.

Lemma length_limited opts (l : list pointer) :
  let L := N.to_nat (ListSizeLimit opts) in
  length (limited opts l) = if decide (L = 0) then length l else length l `min` L.
Proof.
  unfold limited. cbv zeta. case_decide; [done|].
  destruct (TruncateTop opts); rewrite ?length_drop, ?length_take; lia.
Qed.

(** X4. Two merges compose. In append mode, where the limit is guarded (no
    limit, [TruncateTop], or dst's and the first src's lists together reach
    the limit), merging src1 and then src2 into dst returns nil twice and
    leaves what one merge of their concatenation would: the limit applied
    once to dst's list followed by src1's and src2's. src2 is an object
    other than dst with no cell in dst's unused capacity. *)
Theorem Merge_twice h p q1 q2 D S1 S2 opts n :
  objects h !! p = Some D → objects h !! q1 = Some S1 → objects h !! q2 = Some S2 →
  wf_slice h (ChatMessages D) → wf_slice h (ChatMessages S1) → wf_slice h (ChatMessages S2) →
  p ≠ q2 → separate (ChatMessages D) (ChatMessages S2) →
  ShouldReplaceList opts = false →
  let L := N.to_nat (ListSizeLimit opts) in
  L = 0 ∨ TruncateTop opts = true ∨ L ≤ len (ChatMessages D) + len (ChatMessages S1) →
  ∃ h1 h2 D2,
    Merge growslice p (ChatChannelDataMsg q1) (Some opts) n h = (Done None, h1) ∧
    Merge growslice p (ChatChannelDataMsg q2) (Some opts) n h1 = (Done None, h2) ∧
    objects h2 !! p = Some D2 ∧
    elems h2 (ChatMessages D2) =
      limited opts (elems h (ChatMessages D) ++ elems h (ChatMessages S1)
                    ++ elems h (ChatMessages S2)).
Proof.
  intros Hp Hq1 Hq2 HwD HwS1 HwS2 Hpq Hsep Happ L Hguard.
  pose proof (length_elems h _ HwD) as HlD. pose proof (length_elems h _ HwS1) as HlS1.
  destruct (Merge_spec_frame h p q1 D S1 opts n Hp Hq1 HwD HwS1)
    as (r1 & h1 & Hrun1 & Hobj1 & Hwr1 & Hel1 & Hwf1 & Hfr1).
  { rewrite Happ, length_app. fold L.
    destruct Hguard as [?|[?|?]]; [by left|by right; left|right; right; lia]. }
  rewrite Happ in Hel1.
  assert (Hp1 : objects h1 !! p = Some (with_ChatMessages D r1)).
  { rewrite Hobj1. apply list_lookup_insert_eq. by eapply lookup_lt_Some. }
  assert (Hq21 : objects h1 !! q2 = Some S2).
  { rewrite Hobj1. by rewrite list_lookup_insert_ne. }
  assert (HS2 : elems h1 (ChatMessages S2) = elems h (ChatMessages S2)).
  { apply Hfr1; [done|]. intros _. by apply separate_untouched_by. }
  destruct (Merge_spec_frame h1 p q2 _ S2 opts n Hp1 Hq21 Hwr1 (Hwf1 _ HwS2))
    as (r2 & h2 & Hrun2 & Hobj2 & _ & Hel2 & _).
  { rewrite Happ. cbn [with_ChatMessages ChatMessages]. rewrite length_app, Hel1. fold L.
    destruct Hguard as [?|[?|Hle]]; [by left|by right; left|right; right].
    pose proof (length_limited opts (elems h (ChatMessages D) ++ elems h (ChatMessages S1))) as Hll.
    cbv zeta in Hll. fold L in Hll. rewrite length_app in Hll.
    destruct (decide (L = 0)); lia. }
  rewrite Happ in Hel2. cbn [with_ChatMessages ChatMessages] in Hel2.
  exists h1, h2, (with_ChatMessages (with_ChatMessages D r1) r2).
  split_and!; [done|done| |].
  - rewrite Hobj2. apply list_lookup_insert_eq. by eapply lookup_lt_Some.
  - cbn [with_ChatMessages ChatMessages].
    rewrite Hel2, Hel1, HS2, limited_app_l, app_assoc. done.
Qed.
(** *** The store stays well-formed *)

Lemma new_array_keeps h cells u :
  wf_slice h u → wf_slice (Store (arrays h ++ [cells]) (objects h)) u.
Proof.
  intros [Hu1 Hu2]. split; [done|]. destruct (array u) as [b|]; [|done].
  cbn. rewrite length_app. destruct Hu2 as [Hb Hu2].
  rewrite lookup_app_l by done. split; [lia|done].
Qed.

Lemma wf_store_insert h h1 p o :
  wf_store h → (∀ u, wf_slice h u → wf_slice h1 u) →
  objects h1 = <[p := o]> (objects h) → wf_slice h1 (ChatMessages o) →
  wf_store h1.
Proof.
  unfold wf_store. intros Hall Hkeep -> Ho. apply Forall_insert; [|done].
  eapply Forall_impl; [exact Hall|]. intros o' Ho'. by apply Hkeep.
Qed.

Lemma wf_store_same h h1 :
  wf_store h → (∀ u, wf_slice h u → wf_slice h1 u) → objects h1 = objects h → wf_store h1.
Proof.
  unfold wf_store. intros Hall Hkeep ->.
  eapply Forall_impl; [exact Hall|]. intros o' Ho'. by apply Hkeep.
Qed.

Lemma wf_store_lookup h p o : wf_store h → objects h !! p = Some o → wf_slice h (ChatMessages o).
Proof. unfold wf_store. rewrite Forall_lookup. eauto. Qed.

Lemma merge_lists_keeps h p q opts out h1 :
  wf_store h → merge_lists growslice p q opts h = (out, h1) →
  wf_store h1 ∧ ∀ u, wf_slice h u → wf_slice h1 u.
Proof.
  intros Hwf. unfold merge_lists. destruct (ShouldReplaceList opts).
  - rewrite run_bind.
    set (h0 := Store (arrays h ++ [[]]) (objects h)).
    set (e := Slice (Some (length (arrays h))) 0 0 0).
    assert (Hrun0 : empty_slice_literal h = (Done e, h0)) by reflexivity.
    rewrite Hrun0.
    assert (Hkeep0 : ∀ u, wf_slice h u → wf_slice h0 u) by (intros; by apply new_array_keeps).
    assert (Hwf0 : wf_store h0) by (by apply (wf_store_same h)).
    assert (Hwe : wf_slice h0 e).
    { split; [done|]. simpl. rewrite length_app; simpl. split; [lia|].
      rewrite lookup_app_r by lia. by rewrite Nat.sub_diag. }
    rewrite run_bind. unfold get_ChatMessages at 1.
    destruct (objects h0 !! q) as [S|] eqn:Hq; [|by intros [= <- <-]].
    destruct (append_spec growslice h0 e (ChatMessages S) Hwe)
      as (r & h' & Hrun & Hobj & _ & _ & Hwr & _ & Hkeep & _).
    rewrite run_bind, Hrun. unfold set_ChatMessages.
    destruct (objects h' !! p) as [D|] eqn:Hp.
    + intros [= <- <-]. split.
      * eapply (wf_store_insert h0 _ p); [done| |cbn; by rewrite Hobj|].
        -- intros u Hu. eapply wf_slice_arrays; [|by apply Hkeep]. done.
        -- cbn. by eapply wf_slice_arrays.
      * intros u Hu. eapply wf_slice_arrays; [|by apply Hkeep, Hkeep0]. done.
    + intros [= <- <-]. split; [by eapply (wf_store_same h0)|]. auto.
  - rewrite run_bind. unfold get_ChatMessages at 1.
    destruct (objects h !! p) as [D|] eqn:Hp; [|by intros [= <- <-]].
    rewrite run_bind. unfold get_ChatMessages at 1.
    destruct (objects h !! q) as [S|] eqn:Hq; [|by intros [= <- <-]].
    destruct (append_spec growslice h (ChatMessages D) (ChatMessages S)
                (wf_store_lookup h p D Hwf Hp))
      as (r & h' & Hrun & Hobj & _ & _ & Hwr & _ & Hkeep & _).
    assert (Hp' : objects h' !! p = Some D) by (by rewrite Hobj).
    rewrite run_bind, Hrun, (set_ChatMessages_run h' p D r Hp').
    intros [= <- <-]. split.
    + eapply (wf_store_insert h _ p); [done| |cbn; by rewrite Hobj|].
      * intros u Hu. eapply wf_slice_arrays; [|by apply Hkeep]. done.
      * cbn. by eapply wf_slice_arrays.
    + intros u Hu. eapply wf_slice_arrays; [|by apply Hkeep]. done.
Qed.

Lemma apply_limit_keeps h p opts out h1 :
  wf_store h → apply_limit p opts h = (out, h1) →
  wf_store h1 ∧ ∀ u, wf_slice h u → wf_slice h1 u.
Proof.
  intros Hwf. unfold apply_limit.
  assert (Hsame : wf_store h ∧ ∀ u, wf_slice h u → wf_slice h u) by done.
  assert (Hset : ∀ D r, objects h !! p = Some D → wf_slice h r →
            let h' := Store (arrays h) (<[p := with_ChatMessages D r]> (objects h)) in
            wf_store h' ∧ ∀ u, wf_slice h u → wf_slice h' u).
  { intros D r Hp Hr h'.
    assert (∀ u, wf_slice h u → wf_slice h' u) as Hkeep
      by (intros u Hu; by eapply wf_slice_arrays).
    split; [|done]. eapply (wf_store_insert h _ p); [done|done|done|]. by apply Hkeep. }
  case_decide as HL; [|by intros [= <- <-]].
  destruct (TruncateTop opts).
  - rewrite run_bind. unfold get_ChatMessages.
    destruct (objects h !! p) as [D|] eqn:Hp; [|by intros [= <- <-]].
    cbv zeta. set (start := if decide (_ < 0)%Z then 0%Z else _).
    unfold slice_from. case_decide as Hin; [|by intros [= <- <-]].
    rewrite run_bind. cbn [mret M_ret]. rewrite (set_ChatMessages_run h p D _ Hp).
    intros [= <- <-]. apply Hset; [done|].
    destruct (wf_store_lookup h p D Hwf Hp) as [Hw1 Hw2].
    split; [simpl; lia|]. simpl. destruct (array (ChatMessages D)); [|lia].
    split; [tauto|]. lia.
  - rewrite run_bind. unfold get_ChatMessages.
    destruct (objects h !! p) as [D|] eqn:Hp; [|by intros [= <- <-]].
    unfold slice_to. case_decide as Hin; [|by intros [= <- <-]].
    rewrite run_bind. cbn [mret M_ret]. rewrite (set_ChatMessages_run h p D _ Hp).
    intros [= <- <-]. apply Hset; [done|].
    destruct (wf_store_lookup h p D Hwf Hp) as [Hw1 Hw2].
    split; [simpl; lia|]. simpl. done.
Qed.

(** X5. The store stays well-formed. Whatever the arguments (any src, nil
    options, nil pointers) and whatever the outcome (nil, the error, a
    panic), [Merge] leaves every list of every payload inside the capacity
    of its backing array, and every slice that was valid before stays
    valid: a later call never reads outside an array. *)
Theorem Merge_keeps_store_wf h p src options n out h' :
  wf_store h →
  Merge growslice p src options n h = (out, h') →
  wf_store h' ∧ ∀ u, wf_slice h u → wf_slice h' u.
Proof.
  intros Hwf.
  destruct src as [|q|name q]; [by intros [= <- <-]| |by intros [= <- <-]].
  destruct options as [opts|]; [|by intros [= <- <-]].
  rewrite Merge_unfold, run_bind.
  destruct (merge_lists growslice p q opts h) as [out1 h1] eqn:Hrun1.
  destruct (merge_lists_keeps h p q opts out1 h1 Hwf Hrun1) as [Hwf1 Hkeep1].
  destruct out1 as [[]|msg]; [|by intros [= <- <-]].
  rewrite run_bind.
  destruct (apply_limit p opts h1) as [out2 h2] eqn:Hrun2.
  destruct (apply_limit_keeps h1 p opts out2 h2 Hwf1 Hrun2) as [Hwf2 Hkeep2].
  destruct out2 as [[]|msg]; intros [= <- <-]; auto.
Qed.
(** *** Replace mode copies into an array of its own *)

Lemma append_array h s t r h' :
  append growslice s t h = (Done r, h') →
  array r = array s ∨ array r = Some (length (arrays h)).
Proof.
  unfold append. rewrite run_bind. cbn [read_slice]. case_decide.
  - destruct (array s) as [a|] eqn:Ha.
    + rewrite run_bind. cbn. intros [= <- <-]. by left.
    + cbn. intros [= <- <-]. by left.
  - rewrite run_bind. cbn [read_slice]. rewrite run_bind. cbn. intros [= <- <-]. by right.
Qed.

Lemma apply_limit_array h p D opts h' :
  objects h !! p = Some D →
  apply_limit p opts h = (Done tt, h') →
  ∃ D', objects h' !! p = Some D' ∧ array (ChatMessages D') = array (ChatMessages D).
Proof.
  intros Hp. unfold apply_limit.
  assert (Hlt : p < length (objects h)) by (by eapply lookup_lt_Some).
  case_decide as HL; [|intros [= <-]; eauto].
  destruct (TruncateTop opts).
  - rewrite run_bind, (get_ChatMessages_run h p D Hp). cbv zeta.
    unfold slice_from. case_decide; [|done].
    rewrite run_bind. cbn [mret M_ret]. rewrite (set_ChatMessages_run h p D _ Hp).
    intros [= <-]. eexists. cbn. split; [by apply list_lookup_insert_eq|done].
  - rewrite run_bind, (get_ChatMessages_run h p D Hp).
    unfold slice_to. case_decide; [|done].
    rewrite run_bind. cbn [mret M_ret]. rewrite (set_ChatMessages_run h p D _ Hp).
    intros [= <-]. eexists. cbn. split; [by apply list_lookup_insert_eq|done].
Qed.

(** X6. Replace mode copies. After a [Merge] with [ShouldReplaceList] that
    returns nil, dst's list lies in a backing array allocated by the call: it
    shares its array with no slice that existed before, src's list included,
    so that a later append into dst cannot write into src's list. *)
Theorem Merge_replace_fresh_array h p q D S opts n h' :
  objects h !! p = Some D → objects h !! q = Some S →
  ShouldReplaceList opts = true →
  Merge growslice p (ChatChannelDataMsg q) (Some opts) n h = (Done None, h') →
  ∃ D' a, objects h' !! p = Some D' ∧
    array (ChatMessages D') = Some a ∧ length (arrays h) ≤ a ∧
    ∀ u, wf_slice h u → array u ≠ array (ChatMessages D').
Proof.
  intros Hp Hq Hrep. rewrite Merge_unfold, run_bind.
  unfold merge_lists. rewrite Hrep. rewrite run_bind.
  set (h0 := Store (arrays h ++ [[]]) (objects h)).
  set (e := Slice (Some (length (arrays h))) 0 0 0).
  assert (Hrun0 : empty_slice_literal h = (Done e, h0)) by reflexivity.
  rewrite Hrun0, run_bind, (get_ChatMessages_run h0 q S Hq), run_bind.
  destruct (append growslice e (ChatMessages S) h0) as [[r|msg] h1] eqn:Hrun; [|done].
  assert (Hobj : objects h1 = objects h).
  { revert Hrun. unfold append. rewrite run_bind. cbn [read_slice]. case_decide.
    - cbn. by intros [= <- <-].
    - rewrite run_bind. cbn [read_slice]. rewrite run_bind. cbn. by intros [= <- <-]. }
  assert (Hp1 : objects h1 !! p = Some D) by (by rewrite Hobj).
  rewrite (set_ChatMessages_run h1 p D r Hp1), run_bind.
  set (h2 := Store _ _).
  destruct (apply_limit p opts h2) as [[[]|msg] h3] eqn:Hrun3; [|done].
  cbn. intros [= <-].
  assert (Hp2 : objects h2 !! p = Some (with_ChatMessages D r)).
  { cbn. apply list_lookup_insert_eq. by eapply lookup_lt_Some. }
  destruct (apply_limit_array h2 p _ opts h3 Hp2 Hrun3) as (D' & Hp3 & Harr).
  cbn [with_ChatMessages ChatMessages] in Harr.
  assert (Hfresh : ∃ a, array r = Some a ∧ length (arrays h) ≤ a).
  { destruct (append_array h0 e _ r h1 Hrun) as [->| ->]; cbn.
    - eauto.
    - rewrite length_app. cbn. eexists. split; [done|]. lia. }
  destruct Hfresh as (a & Ha & Hle).
  exists D', a. rewrite Harr. split_and!; [done..|].
  intros u [_ Hu] Heq. rewrite Ha in Heq. rewrite Heq in Hu. lia.
Qed.

(** X7. Nil pointers. With a [ChatChannelData] src, [Merge] panics with a nil
    pointer dereference when [options] is nil, when dst is nil or when src is
    a nil [ChatChannelData] pointer, and no payload is modified. *)
Theorem Merge_nil_pointer_panics h p q options n :
  options = None ∨ objects h !! p = None ∨ objects h !! q = None →
  ∃ h', Merge growslice p (ChatChannelDataMsg q) options n h = (Panic nil_dereference, h') ∧
    objects h' = objects h.
Proof.
  intros Hnil. destruct options as [opts|]; [|by exists h].
  destruct Hnil as [?|Hnil]; [done|].
  rewrite Merge_unfold, run_bind. unfold merge_lists.
  destruct (ShouldReplaceList opts).
  - rewrite run_bind.
    set (h0 := Store (arrays h ++ [[]]) (objects h)).
    set (e := Slice (Some (length (arrays h))) 0 0 0).
    assert (Hrun0 : empty_slice_literal h = (Done e, h0)) by reflexivity.
    rewrite Hrun0, run_bind. unfold get_ChatMessages at 1.
    destruct (objects h0 !! q) as [S|] eqn:Hq; [|by exists h0].
    destruct Hnil as [Hp|Hq']; [|cbn in Hq; congruence].
    assert (Hwe : wf_slice h0 e).
    { split; [done|]. simpl. rewrite length_app; simpl. split; [lia|].
      rewrite lookup_app_r by lia. by rewrite Nat.sub_diag. }
    destruct (append_spec growslice h0 e (ChatMessages S) Hwe) as (r & h1 & Hrun & Hobj & _).
    rewrite run_bind, Hrun. unfold set_ChatMessages. rewrite Hobj. cbn [objects h0].
    rewrite Hp. by exists h1.
  - rewrite run_bind. unfold get_ChatMessages at 1.
    destruct (objects h !! p) as [D|] eqn:Hp; [|by exists h].
    rewrite run_bind. unfold get_ChatMessages at 1.
    destruct (objects h !! q) as [S|] eqn:Hq; [|by exists h].
    by destruct Hnil.
Qed.
End MergeMore.

(** ** The test double of the message sender: proofs *)

Lemma Send_accepted s c m :
  accepted s m →
  Send s c {| Msg := m |} =
    (Done tt, {| msgQueue := msgQueue s ++ [processed s m]; msgProcessor := msgProcessor s |}).
Proof.
  unfold accepted, processed, Send. destruct (msgProcessor s) as [f|]; [|done].
  cbn. destruct (f m) as [m' err]. cbn. by intros ->.
Qed.

Lemma send_all_accepted s c ms :
  Forall (accepted s) ms →
  send_all s c ms =
    (Done tt, {| msgQueue := msgQueue s ++ (processed s <$> ms);
                 msgProcessor := msgProcessor s |}).
Proof.
  revert s. induction ms as [|m ms IH]; intros s Hall.
  - cbn. rewrite app_nil_r. by destruct s.
  - apply Forall_cons in Hall as [Hm Hms]. cbn [send_all].
    rewrite (Send_accepted s c m Hm).
    rewrite IH by done. cbn. by rewrite <-app_assoc.
Qed.

(** X8. The queue records what was sent, in order. When the processor
    accepts every message of [ms] (or there is no processor), sending them
    one after another never panics, keeps the processor, and leaves the
    queue as it was followed by the processed messages in the order sent:
    the queue only grows, by one message for each one sent. *)
Theorem send_all_queue s c ms :
  Forall (accepted s) ms →
  ∃ s', send_all s c ms = (Done tt, s') ∧
        msgProcessor s' = msgProcessor s ∧
        msgQueue s' = msgQueue s ++ (processed s <$> ms) ∧
        length (msgQueue s') = length (msgQueue s) + length ms.
Proof.
  intros Hall. eexists. split; [by apply send_all_accepted|].
  cbn. by rewrite length_app, length_fmap.
Qed.

(** X9. [latestMsg] reads back the last message sent. On a connection made
    by [addTestConnectionWithProcessor], after messages the processor accepts
    have been sent through its sender, [latestMsg] returns the last of them
    as processed, and nil when none was sent; it never panics. *)
Theorem latestMsg_after_sends added p c ms :
  let s0 := {| msgQueue := []; msgProcessor := p |} in
  sender (addTestConnectionWithProcessor added p) = TestQueued s0 →
  Forall (accepted s0) ms →
  latestMsg {| sender := TestQueued (send_all s0 c ms).2 |} =
    Done (default NilMessage (last (processed s0 <$> ms))).
Proof.
  intros s0 _ Hall.
  rewrite (send_all_accepted s0 c ms Hall).
  change (msgQueue s0) with (@nil proto_Message). cbn [snd msgQueue app].
  unfold latestMsg, testQueue. cbn [sender msgQueue].
  set (out := processed s0 <$> ms).
  case_decide as Hlen.
  - replace (length out - 1) with (pred (length out)) by lia.
    rewrite <-last_lookup. destruct (last out) as [m|] eqn:Hlast; [done|].
    apply last_None in Hlast. rewrite Hlast in Hlen. cbn in Hlen. lia.
  - destruct out; [done|cbn in Hlen; lia].
Qed.

(** X10. A failing processor stops the sender. When the processor accepts
    the messages [ms] and returns an error for the next message [m], sending
    [ms], [m] and any further messages panics with that error's text at [m]:
    the queue holds what it held before and the processed [ms], neither [m]
    nor anything after it. *)
Theorem send_all_stops_at_failure s c ms m rest f m' text :
  msgProcessor s = Some f →
  Forall (accepted s) ms →
  f m = (m', Some (errors_New text)) →
  send_all s c (ms ++ m :: rest) =
    (Panic text, {| msgQueue := msgQueue s ++ (processed s <$> ms);
                    msgProcessor := msgProcessor s |}).
Proof.
  revert s. induction ms as [|m0 ms IH]; intros s Hf Hall Hfail.
  - cbn [app send_all]. unfold Send. rewrite Hf. cbn. rewrite Hfail. cbn.
    rewrite app_nil_r, <-Hf. by destruct s.
  - apply Forall_cons in Hall as [Hm Hms]. cbn [app send_all].
    rewrite (Send_accepted s c m0 Hm).
    rewrite IH; [|done|done|done]. cbn. by rewrite <-app_assoc.
Qed.

(** A sender of another type makes both helpers panic on the type
    assertion. *)
Lemma latestMsg_other_sender name :
  latestMsg {| sender := OtherSender name |} = Panic interface_conversion.
Proof. reflexivity. Qed.

(** ** The loop of [TestListRemoveElement]: proofs *)

Lemma remove_b_loop_spec l w :
  remove_b_loop (length l) {| kept := kept w; from_p := l ++ from_p w; printed := printed w |} =
  Done {| kept := kept w ++ filter (λ v, v ≠ "b") l;
          from_p := from_p w;
          printed := printed w ++ l |}.
Proof.
  revert w. induction l as [|v l IH]; intros w.
  - cbn. by rewrite !app_nil_r.
  - cbn [length remove_b_loop app]. unfold remove_b_step. cbn [from_p kept printed].
    case_decide as Hv.
    + specialize (IH {| kept := kept w; from_p := from_p w; printed := printed w ++ [v] |}).
      cbn in IH. rewrite IH. rewrite filter_cons_False by (by intros ?).
      by rewrite <-app_assoc.
    + specialize (IH {| kept := kept w ++ [v]; from_p := from_p w; printed := printed w ++ [v] |}).
      cbn in IH. rewrite IH. rewrite filter_cons_True by done.
      by rewrite <-!app_assoc.
Qed.

(** X11. The removal loop. For a list of any content, the loop that runs
    [list.Len()] times from the front never dereferences a nil element,
    prints every element once in order, and leaves exactly the elements
    other than "b", in their order. *)
Theorem remove_b_filters l :
  remove_b l = Done (filter (λ v, v ≠ "b") l, l).
Proof.
  unfold remove_b.
  pose proof (remove_b_loop_spec l {| kept := []; from_p := []; printed := [] |}) as H.
  cbn in H. rewrite app_nil_r in H. rewrite H. cbn. by rewrite app_nil_r.
Qed.

(** The list of the test: three elements are left, as it asserts. *)
Example TestListRemoveElement :
  (λ r, length r.1) <$> match remove_b ["a"; "b"; "b"; "c"; "b"; "d"] with
                        | Done r => Some r | Panic _ => None end = Some 3.
Proof. reflexivity. Qed.

(** Had the loop run one more time than the list is long, it would panic. *)
Lemma remove_b_loop_too_far l :
  remove_b_loop (S (length l)) {| kept := []; from_p := l; printed := [] |}
  = Panic nil_dereference.
Proof.
  pose proof (remove_b_loop_spec l {| kept := []; from_p := []; printed := [] |}) as H.
  cbn in H. rewrite app_nil_r in H.
  replace (S (length l)) with (length l + 1) by lia.
  revert H. generalize {| kept := []; from_p := l; printed := [] |}.
  generalize (length l). intros n. induction n as [|n IH]; intros w.
  - cbn. intros [= ->]. done.
  - cbn [Nat.add remove_b_loop]. destruct (remove_b_step w); [apply IH|done].
Qed.
(** ** [InitLogsAndMetrics]: proofs *)

Lemma InitLogsAndMetrics_unfold a st :
  InitLogsAndMetrics a st =
  register_all collectors {| logger := Ptr a; registry := registry st |}.
Proof.
  unfold InitLogsAndMetrics, collectors, and_then. cbn [register_all].
  repeat (match goal with
          | |- context [MustRegister ?c ?s] => destruct (MustRegister c s) as [[[]|?] ?]
          end; try reflexivity).
Qed.

(** [Register] returns no error for a collector that is registrable, and
    adds it; for any other it returns one of its three errors and changes
    nothing. *)
Lemma Register_registrable d r :
  registrable r d → Register d r = (None, with_collectors [d] r).
Proof.
  intros (Hdim & Hcol & Hdesc). unfold Register, with_collectors.
  destruct (dimHashesByName r !! fqName d) as [h|] eqn:Hname.
  - rewrite bool_decide_eq_true_2 by done. cbn [negb].
    rewrite !bool_decide_eq_false_2 by done. do 2 f_equal.
    + cbn. by rewrite (right_id_L ∅ (∪)).
    + cbn. by rewrite (right_id_L ∅ (∪)).
    + cbn. by rewrite insert_empty, <-insert_union_singleton_l.
  - cbn [negb]. rewrite !bool_decide_eq_false_2 by done. do 2 f_equal.
    + cbn. by rewrite (right_id_L ∅ (∪)).
    + cbn. by rewrite (right_id_L ∅ (∪)).
    + cbn. by rewrite insert_empty, <-insert_union_singleton_l.
Qed.

Lemma Register_refuses d r :
  ¬ registrable r d →
  ∃ err, Register d r = (Some err, r) ∧
         err ∈ [inconsistent_descriptor; already_registered; duplicate_descriptor].
Proof.
  intros Hno. unfold Register.
  destruct (dimHashesByName r !! fqName d) as [h|] eqn:Hname.
  - destruct (decide (h = dimHash d)) as [Hh|Hh].
    + rewrite (bool_decide_eq_true_2 _ Hh). cbn [negb].
      destruct (decide ({[desc_id d]} ∈ collectorsByID r)) as [Hc|Hc].
      * rewrite (bool_decide_eq_true_2 _ Hc). eexists. split; [done|]. compute_done.
      * rewrite (bool_decide_eq_false_2 _ Hc).
        destruct (decide (desc_id d ∈ descIDs r)) as [Hd|Hd].
        -- rewrite (bool_decide_eq_true_2 _ Hd). eexists. split; [done|]. compute_done.
        -- exfalso. apply Hno. unfold registrable. by rewrite Hname.
    + rewrite (bool_decide_eq_false_2 _ Hh). cbn [negb].
      eexists. split; [done|]. compute_done.
  - cbn [negb].
    destruct (decide ({[desc_id d]} ∈ collectorsByID r)) as [Hc|Hc].
    + rewrite (bool_decide_eq_true_2 _ Hc). eexists. split; [done|]. compute_done.
    + rewrite (bool_decide_eq_false_2 _ Hc).
      destruct (decide (desc_id d ∈ descIDs r)) as [Hd|Hd].
      * rewrite (bool_decide_eq_true_2 _ Hd). eexists. split; [done|]. compute_done.
      * exfalso. apply Hno. unfold registrable. by rewrite Hname.
Qed.

(** A collector added under another name leaves the registry as ready for
    this one as it was. *)
Lemma registrable_with_collector c d r :
  fqName c ≠ fqName d →
  registrable (with_collectors [c] r) d ↔ registrable r d.
Proof.
  intros Hne. unfold registrable, with_collectors. cbn.
  rewrite insert_empty, <-insert_union_singleton_l, lookup_insert_ne by done.
  rewrite !(right_id_L ∅ (∪)).
  assert (Hid : desc_id d ≠ desc_id c) by (unfold desc_id; congruence).
  rewrite !not_elem_of_union, !elem_of_singleton.
  split.
  - intros (? & [_ ?] & [_ ?]). done.
  - intros (? & ? & ?). split_and!; try done.
    intros Heq. apply Hid.
    assert (Hin : desc_id d ∈ ({[desc_id c]} : gset (list string))).
    { rewrite <-Heq. by apply elem_of_singleton. }
    by apply elem_of_singleton in Hin.
Qed.

Lemma with_collectors_cons c cs r :
  fqName c ∉ fqName <$> cs →
  with_collectors cs (with_collectors [c] r) = with_collectors (c :: cs) r.
Proof.
  intros Hfresh. unfold with_collectors. cbn. f_equal.
  - rewrite !(right_id_L ∅ (∪)).
    by rewrite (assoc_L (∪)), (comm_L (∪) (list_to_set _)).
  - rewrite !(right_id_L ∅ (∪)).
    by rewrite (assoc_L (∪)), (comm_L (∪) (list_to_set _)).
  - rewrite insert_empty, <-!insert_union_singleton_l.
    rewrite <-insert_union_l. symmetry. apply insert_union_r.
    apply not_elem_of_list_to_map_1. by rewrite <-list_fmap_compose.
Qed.

(** Registering collectors of distinct names one after another succeeds
    exactly when each of them is registrable, and then adds them
    all. *)
Lemma register_all_registrable cs st :
  NoDup (fqName <$> cs) →
  Forall (registrable (registry st)) cs →
  register_all cs st =
    (Done tt, {| logger := logger st; registry := with_collectors cs (registry st) |}).
Proof.
  revert st. induction cs as [|c cs IH]; intros st Hnd Hall.
  - cbn. unfold with_collectors. cbn. rewrite !(left_id_L ∅ (∪)). by destruct st as [? []].
  - cbn in Hnd. apply NoDup_cons in Hnd as [Hc Hnd].
    apply Forall_cons in Hall as [Hfree Hall].
    cbn [register_all]. unfold MustRegister. rewrite (Register_registrable _ _ Hfree).
    rewrite IH; [|done|].
    + cbn [logger registry]. by rewrite with_collectors_cons.
    + cbn [registry]. apply Forall_forall. intros d Hd.
      apply registrable_with_collector.
      * intros Heq. apply Hc. rewrite Heq. by apply list_elem_of_fmap_2.
      * by eapply Forall_forall in Hall.
Qed.

(** A collector that the registry refuses stops the registrations: the ones
    before it stay registered and the panic carries one of the registry's
    errors. *)
Lemma register_all_refused cs st :
  NoDup (fqName <$> cs) →
  ¬ Forall (registrable (registry st)) cs →
  ∃ err, (register_all cs st).1 = Panic err ∧
         err ∈ [inconsistent_descriptor; already_registered; duplicate_descriptor].
Proof.
  revert st. induction cs as [|c cs IH]; intros st Hnd Hno.
  - exfalso. apply Hno. constructor.
  - cbn in Hnd. apply NoDup_cons in Hnd as [Hc Hnd].
    cbn [register_all]. unfold MustRegister.
    destruct (decide (registrable (registry st) c)) as [Hfree|Hfree].
    + rewrite (Register_registrable _ _ Hfree). apply IH; [done|].
      cbn [registry]. intros Hall. apply Hno. constructor; [done|].
      apply Forall_forall. intros d Hd.
      apply (registrable_with_collector c); [|by eapply Forall_forall in Hall].
      intros Heq. apply Hc. rewrite Heq. by apply list_elem_of_fmap_2.
    + destruct (Register_refuses _ _ Hfree) as (err & -> & Herr). eauto.
Qed.

Lemma NoDup_collectors : NoDup (fqName <$> collectors).
Proof. compute_done. Qed.

(** X12. Registration succeeds exactly on a registry in which each of the
    package's eight collectors is registrable: its name is free, or held with
    the same help string and labels, and neither the collector nor its
    descriptor is registered. [InitLogsAndMetrics] returns if and only if
    that is so; it then has set the logger and added exactly these eight
    collectors to the registry. Otherwise it panics with one of the
    registry's errors. *)
Theorem InitLogsAndMetrics_returns_iff a st :
  let fresh := Forall (registrable (registry st)) collectors in
  ((InitLogsAndMetrics a st).1 = Done tt ↔ fresh) ∧
  (fresh →
   (InitLogsAndMetrics a st).2 =
     {| logger := Ptr a; registry := with_collectors collectors (registry st) |}) ∧
  (¬ fresh →
   ∃ err, (InitLogsAndMetrics a st).1 = Panic err ∧
          err ∈ [inconsistent_descriptor; already_registered; duplicate_descriptor]).
Proof.
  intros fresh. rewrite InitLogsAndMetrics_unfold.
  set (st0 := {| logger := Ptr a; registry := registry st |}).
  assert (Hsucc : fresh → register_all collectors st0 =
            (Done tt, {| logger := Ptr a;
                         registry := with_collectors collectors (registry st) |})).
  { intros Hfresh. by apply (register_all_registrable collectors st0 NoDup_collectors). }
  assert (Hfail : ¬ fresh →
            ∃ err, (register_all collectors st0).1 = Panic err ∧
              err ∈ [inconsistent_descriptor; already_registered; duplicate_descriptor]).
  { intros Hno. by apply (register_all_refused collectors st0 NoDup_collectors). }
  split_and!.
  - split.
    + intros Hdone. destruct (decide fresh) as [|Hno]; [done|].
      destruct (Hfail Hno) as (err & Herr & _). congruence.
    + intros Hfresh. by rewrite (Hsucc Hfresh).
  - intros Hfresh. by rewrite (Hsucc Hfresh).
  - done.
Qed.

(** Registrations never take a collector out of the registry. *)
Lemma Register_keeps d c r :
  holds r d → holds (Register c r).2 d.
Proof.
  intros [Hcol Hdim]. unfold Register.
  destruct (dimHashesByName r !! fqName c) as [h|] eqn:Hname.
  - destruct (decide (h = dimHash c)) as [Hh|Hh].
    + rewrite (bool_decide_eq_true_2 _ Hh). cbn [negb].
      repeat case_bool_decide; try done. split; cbn.
      * apply elem_of_union. by right.
      * destruct (decide (fqName c = fqName d)) as [Heq|Hne].
        -- rewrite Heq, lookup_insert_eq. congruence.
        -- by rewrite lookup_insert_ne.
    + by rewrite (bool_decide_eq_false_2 _ Hh).
  - cbn [negb]. repeat case_bool_decide; try done. split; cbn.
    + apply elem_of_union. by right.
    + destruct (decide (fqName c = fqName d)) as [Heq|Hne].
      * congruence.
      * by rewrite lookup_insert_ne.
Qed.

Lemma MustRegister_keeps d c st :
  holds (registry st) d → holds (registry (MustRegister c st).2) d.
Proof.
  intros Hd. unfold MustRegister.
  pose proof (Register_keeps d c (registry st) Hd) as Hkeep.
  by destruct (Register c (registry st)) as [[err|] r].
Qed.

Lemma register_all_keeps d cs st :
  holds (registry st) d → holds (registry (register_all cs st).2) d.
Proof.
  revert st. induction cs as [|c cs IH]; intros st Hd; [done|].
  cbn [register_all].
  pose proof (MustRegister_keeps d c st Hd) as Hkeep.
  destruct (MustRegister c st) as [[[]|msg] st']; [by apply IH|done].
Qed.

(** A collector that the registry holds is refused as registered already. *)
Lemma Register_held d r :
  holds r d → Register d r = (Some already_registered, r).
Proof.
  intros [Hcol Hdim]. unfold Register. rewrite Hdim.
  rewrite bool_decide_eq_true_2 by done. cbn [negb].
  by rewrite bool_decide_eq_true_2.
Qed.

Lemma register_all_head_refused c cs st err :
  Register c (registry st) = (Some err, registry st) →
  register_all (c :: cs) st = (Panic err, st).
Proof. intros Hreg. cbn [register_all]. unfold MustRegister. by rewrite Hreg. Qed.

Lemma register_all_head_registrable c cs st :
  registrable (registry st) c →
  register_all (c :: cs) st =
  register_all cs {| logger := logger st; registry := with_collectors [c] (registry st) |}.
Proof.
  intros Hfree. cbn [register_all]. unfold MustRegister.
  by rewrite (Register_registrable _ _ Hfree).
Qed.

Lemma holds_with_collector c r : holds (with_collectors [c] r) c.
Proof.
  unfold holds, with_collectors. cbn. split.
  - apply elem_of_union. left. apply elem_of_union. left. by apply elem_of_singleton.
  - by rewrite insert_empty, <-insert_union_singleton_l, lookup_insert_eq.
Qed.

(** X13. [InitLogsAndMetrics] cannot be called twice. Whatever the registry
    held and whatever the first call did, a second call panics at its first
    registration with an error of the registry: it replaces the logger and
    registers nothing. After a first call that returned, the error is the
    one for a collector registered already. *)
Theorem InitLogsAndMetrics_twice a b st :
  let first := InitLogsAndMetrics a st in
  ∃ err, InitLogsAndMetrics b first.2 =
           (Panic err, {| logger := Ptr b; registry := registry first.2 |}) ∧
         err ∈ [inconsistent_descriptor; already_registered; duplicate_descriptor] ∧
         (first.1 = Done tt → err = already_registered).
Proof.
  intros first. unfold first. rewrite !InitLogsAndMetrics_unfold.
  set (st0 := {| logger := Ptr a; registry := registry st |}).
  change collectors with (packetReceived :: tail collectors).
  destruct (decide (registrable (registry st0) packetReceived)) as [Hfree|Hfree].
  - rewrite (register_all_head_registrable _ _ st0 Hfree).
    set (st1 := {| logger := logger st0;
                   registry := with_collectors [packetReceived] (registry st0) |}).
    assert (Hheld : holds (registry (register_all (tail collectors) st1).2) packetReceived).
    { apply register_all_keeps. apply holds_with_collector. }
    exists already_registered. split_and!; [|compute_done|done].
    apply register_all_head_refused. cbn [registry]. by apply Register_held.
  - destruct (Register_refuses _ _ Hfree) as (err & Hreg & Herr).
    rewrite (register_all_head_refused _ _ st0 err Hreg).
    exists err. split_and!; [|done|done].
    by apply register_all_head_refused.
Qed.

(** ** The further scenarios *)

(** Scenario C again: the limit 4 does not exceed the capacity 5 that the
    list has after the append, and [Merge] returns. *)
Lemma Merge_returns_or_panics_witness :
  ∃ h', Merge exact_fit 0 (ChatChannelDataMsg 1) (Some limit_4) NilNotifier two_chats
        = (Done None, h').
Proof.
  apply (Merge_returns_or_panics exact_fit two_chats 0 1
           (chat (Slice (Some 0) 0 3 3)) (chat (Slice (Some 1) 0 2 2))
           limit_4 NilNotifier);
    compute_done.
Defined.

Lemma Merge_size_limit_guarded_witness :
  ∃ h' D', Merge exact_fit 0 (ChatChannelDataMsg 1) (Some limit_4_top) NilNotifier two_chats
             = (Done None, h') ∧
    objects h' !! 0 = Some D' ∧
    length (elems h' (ChatMessages D')) = 4.
Proof.
  apply (Merge_size_limit_guarded exact_fit two_chats 0 1
           (chat (Slice (Some 0) 0 3 3)) (chat (Slice (Some 1) 0 2 2))
           limit_4_top NilNotifier);
    compute_done.
Defined.

(** Appending [d,e] to [a,b,c] without a limit. *)
Lemma Merge_without_truncation_witness :
  ∃ h' D', Merge exact_fit 0 (ChatChannelDataMsg 1) (Some default_options) NilNotifier two_chats
             = (Done None, h') ∧
    objects h' !! 0 = Some D' ∧
    internal D' = tt ∧
    elems h' (ChatMessages D') = [Ptr 1; Ptr 2; Ptr 3; Ptr 4; Ptr 5].
Proof.
  apply (Merge_without_truncation exact_fit two_chats 0 1
           (chat (Slice (Some 0) 0 3 3)) (chat (Slice (Some 1) 0 2 2))
           default_options NilNotifier);
    compute_done.
Defined.

(** [d,e] and then [f] merged into [a,b,c] under limit 4 with
    [TruncateTop] leave [c,d,e,f]. *)
Lemma Merge_twice_witness :
  ∃ h1 h2 D2,
    Merge exact_fit 0 (ChatChannelDataMsg 1) (Some limit_4_top) NilNotifier three_chats
      = (Done None, h1) ∧
    Merge exact_fit 0 (ChatChannelDataMsg 2) (Some limit_4_top) NilNotifier h1
      = (Done None, h2) ∧
    objects h2 !! 0 = Some D2 ∧
    elems h2 (ChatMessages D2) = [Ptr 3; Ptr 4; Ptr 5; Ptr 6].
Proof.
  apply (Merge_twice exact_fit three_chats 0 1 2
           (chat (Slice (Some 0) 0 3 3)) (chat (Slice (Some 1) 0 2 2))
           (chat (Slice (Some 2) 0 1 1)) limit_4_top NilNotifier);
    compute_done.
Defined.

(** The store of scenario C is well-formed and stays so, also through the
    panic of a limit beyond the capacity. *)
Lemma Merge_keeps_store_wf_witness :
  wf_store (Merge exact_fit 0 (ChatChannelDataMsg 1) (Some limit_4) NilNotifier two_chats).2 ∧
  wf_store (Merge exact_fit 0 (ChatChannelDataMsg 1)
              (Some {| ShouldReplaceList := false; ListSizeLimit := 9; TruncateTop := false;
                       ShouldCheckRemovableMapField := false |}) NilNotifier two_chats).2.
Proof.
  assert (Hwf : wf_store two_chats) by compute_done.
  split.
  - exact (proj1 (Merge_keeps_store_wf exact_fit two_chats 0 _ _ _ _ _ Hwf
                    (surjective_pairing _))).
  - exact (proj1 (Merge_keeps_store_wf exact_fit two_chats 0 _ _ _ _ _ Hwf
                    (surjective_pairing _))).
Defined.

Lemma Merge_replace_fresh_array_witness :
  ∃ D' a, objects (Merge exact_fit 0 (ChatChannelDataMsg 1) (Some replace_list) NilNotifier
                     two_chats).2 !! 0 = Some D' ∧
    array (ChatMessages D') = Some a ∧ 2 ≤ a ∧
    ∀ u, wf_slice two_chats u → array u ≠ array (ChatMessages D').
Proof.
  apply (Merge_replace_fresh_array exact_fit two_chats 0 1
           (chat (Slice (Some 0) 0 3 3)) (chat (Slice (Some 1) 0 2 2))
           replace_list NilNotifier);
    compute_done.
Defined.

(** Nil options, and a nil dst (address 7 is not mapped). *)
Lemma Merge_nil_pointer_panics_witness :
  (∃ h', Merge exact_fit 0 (ChatChannelDataMsg 1) None NilNotifier two_chats
         = (Panic nil_dereference, h') ∧ objects h' = objects two_chats) ∧
  (∃ h', Merge exact_fit 7 (ChatChannelDataMsg 1) (Some replace_list) NilNotifier two_chats
         = (Panic nil_dereference, h') ∧ objects h' = objects two_chats).
Proof.
  split.
  - apply (Merge_nil_pointer_panics exact_fit). by left.
  - apply (Merge_nil_pointer_panics exact_fit). right; left. reflexivity.
Defined.

(** Two messages through a sender that already holds one. *)
Lemma send_all_queue_witness :
  ∃ s', send_all refusing_sender any_connection [OtherMsg "second" 2; ChatChannelDataMsg 3]
          = (Done tt, s') ∧
        msgProcessor s' = Some refuse_nil ∧
        msgQueue s' = [OtherMsg "first" 1; OtherMsg "second" 2; ChatChannelDataMsg 3] ∧
        length (msgQueue s') = 3.
Proof. apply (send_all_queue refusing_sender any_connection). compute_done. Defined.

Lemma latestMsg_after_sends_witness :
  latestMsg {| sender := TestQueued
                 (send_all {| msgQueue := []; msgProcessor := Some refuse_nil |} any_connection
                    [OtherMsg "second" 2; ChatChannelDataMsg 3]).2 |}
  = Done (ChatChannelDataMsg 3).
Proof.
  apply (latestMsg_after_sends any_connection (Some refuse_nil) any_connection
           [OtherMsg "second" 2; ChatChannelDataMsg 3]);
    [reflexivity|compute_done].
Defined.

(** The nil message stops the sender: what follows it is not queued. *)
Lemma send_all_stops_at_failure_witness :
  send_all refusing_sender any_connection
           [OtherMsg "second" 2; NilMessage; ChatChannelDataMsg 3] =
    (Panic "nil message",
     {| msgQueue := [OtherMsg "first" 1; OtherMsg "second" 2];
        msgProcessor := Some refuse_nil |}).
Proof.
  apply (send_all_stops_at_failure refusing_sender any_connection
           [OtherMsg "second" 2] NilMessage [ChatChannelDataMsg 3]
           refuse_nil NilMessage "nil message");
    [reflexivity|compute_done|reflexivity].
Defined.

(** A registry that holds nothing of the package yet. *)
Lemma InitLogsAndMetrics_returns_iff_witness :
  (InitLogsAndMetrics 1 {| logger := NilPtr; registry := empty_registry |}).1 = Done tt.
Proof. apply InitLogsAndMetrics_returns_iff. compute_done. Defined.

(** The second call after a first one that returned. *)
Lemma InitLogsAndMetrics_twice_witness :
  let first := InitLogsAndMetrics 1 {| logger := NilPtr; registry := empty_registry |} in
  ∃ err, InitLogsAndMetrics 2 first.2 =
           (Panic err, {| logger := Ptr 2; registry := registry first.2 |}) ∧
         err ∈ [inconsistent_descriptor; already_registered; duplicate_descriptor] ∧
         (first.1 = Done tt → err = already_registered).
Proof. apply (InitLogsAndMetrics_twice 1 2). Defined.

Example InitLogsAndMetrics_first_then_second :
  let first := InitLogsAndMetrics 1 {| logger := NilPtr; registry := empty_registry |} in
  first.1 = Done tt ∧
  (InitLogsAndMetrics 2 first.2).1 = Panic already_registered.
Proof. split; reflexivity. Qed.

(** Where another collector holds the name [packets_in] with a help string
    of its own, the first registration is refused for the inconsistent
    descriptor. *)
Example InitLogsAndMetrics_name_taken :
  InitLogsAndMetrics 1 {| logger := NilPtr; registry := other_packets_in |} =
    (Panic inconsistent_descriptor, {| logger := Ptr 1; registry := other_packets_in |}).
Proof. reflexivity. Qed.
